(** * Sequelize utility helpers: [lib/utils/object.ts] and [lib/utils/format.ts]

    A shallow embedding of the object and query-option helpers, together
    with the few lodash primitives they call.  JavaScript values are
    represented as finite trees; objects are association lists kept in
    property-enumeration order, because several helpers depend on that
    order (later assignments overwrite earlier ones).

    Limits of the representation: numbers are integers; values are trees,
    so two references to one array or object are two copies, and cyclic
    structures do not exist; objects have no prototype chain, so only own
    properties are seen; a newly assigned key is enumerated last, also
    when it spells an integer.  A helper that assigns into an object it
    was given is modelled as the function from the properties of that
    object before the call to its properties after the call. *)

From Stdlib Require Import List String Ascii ZArith Bool Lia DecimalString.
Import ListNotations.
Open Scope string_scope.
Set Warnings "-register-all".

(* ================================================================== *)
(** ** JavaScript values *)
(* ================================================================== *)

Module Js.

(** A [Symbol] is identified by a number. *)
Definition symbol := nat.

(** Property keys are strings or symbols. *)
Inductive key : Type :=
| KStr (s : string)
| KSym (y : symbol).

Definition key_eqb (a b : key) : bool :=
  match a, b with
  | KStr s, KStr t => String.eqb s t
  | KSym x, KSym y => Nat.eqb x y
  | _, _ => false
  end.

(** The values the helpers handle.  Numbers are integers (no fractional
    or NaN values are needed by any helper here).  [VObj] is a plain
    object (what lodash's [isPlainObject] accepts); [VInst] is any other
    object, such as a model, a data type or a class instance, with its own
    enumerable properties; [VFunc] is a function, recording whether it is
    a native one and what its [clone] method returns when it has one. *)
Inductive value : Type :=
| VUndefined
| VNull
| VBool (b : bool)
| VNum (n : Z)
| VStr (s : string)
| VArr (elems : list value)
| VObj (fields : list (key * value))
| VInst (cls : nat) (fields : list (key * value))
| VFunc (id : nat) (native : bool) (clone : option value).

Definition props := list (key * value).

(** Induction principle that reaches through the nested lists. *)
Section ValueInd.
Variable P : value -> Prop.
Hypothesis Hundef : P VUndefined.
Hypothesis Hnull : P VNull.
Hypothesis Hbool : forall b, P (VBool b).
Hypothesis Hnum : forall n, P (VNum n).
Hypothesis Hstr : forall s, P (VStr s).
Hypothesis Harr : forall l, Forall P l -> P (VArr l).
Hypothesis Hobj : forall f, Forall (fun kv => P (snd kv)) f -> P (VObj f).
Hypothesis Hinst :
  forall c f, Forall (fun kv => P (snd kv)) f -> P (VInst c f).
Hypothesis Hfunc0 : forall i n, P (VFunc i n None).
Hypothesis Hfunc1 : forall i n r, P r -> P (VFunc i n (Some r)).

Fixpoint value_ind' (v : value) : P v :=
  let fix elems_ind (l : list value) : Forall P l :=
    match l with
    | [] => Forall_nil _
    | x :: l' => Forall_cons _ (value_ind' x) (elems_ind l')
    end in
  let fix fields_ind (f : props) : Forall (fun kv => P (snd kv)) f :=
    match f with
    | [] => Forall_nil _
    | kv :: f' =>
        Forall_cons (P := fun kv => P (snd kv)) kv
          (value_ind' (snd kv)) (fields_ind f')
    end in
  match v with
  | VUndefined => Hundef
  | VNull => Hnull
  | VBool b => Hbool b
  | VNum n => Hnum n
  | VStr s => Hstr s
  | VArr l => Harr l (elems_ind l)
  | VObj f => Hobj f (fields_ind f)
  | VInst c f => Hinst c f (fields_ind f)
  | VFunc i n None => Hfunc0 i n
  | VFunc i n (Some r) => Hfunc1 i n r (value_ind' r)
  end.
End ValueInd.

(** Truthiness ([!!v]). *)
Definition truthy (v : value) : bool :=
  match v with
  | VUndefined | VNull => false
  | VBool b => b
  | VNum n => negb (Z.eqb n 0)
  | VStr s => negb (String.eqb s "")
  | _ => true
  end.

(** [typeof v === 'object']. *)
Definition typeof_object (v : value) : bool :=
  match v with
  | VNull | VArr _ | VObj _ | VInst _ _ => true
  | _ => false
  end.

(** [typeof v === 'object' && v !== null]. *)
Definition is_nonnull_object (v : value) : bool :=
  match v with
  | VArr _ | VObj _ | VInst _ _ => true
  | _ => false
  end.

Definition isArray (v : value) : bool :=
  match v with VArr _ => true | _ => false end.

Definition is_undefined (v : value) : bool :=
  match v with VUndefined => true | _ => false end.

Definition is_nullish (v : value) : bool :=
  match v with VUndefined | VNull => true | _ => false end.

(** *** Properties of an object, as an ordered association list *)

Fixpoint lookup (k : key) (f : props) : option value :=
  match f with
  | [] => None
  | (k', v) :: f' => if key_eqb k k' then Some v else lookup k f'
  end.

(** [o[k] = v]: overwrite in place when the key exists, append otherwise. *)
Fixpoint assign (k : key) (v : value) (f : props) : props :=
  match f with
  | [] => [(k, v)]
  | (k', v') :: f' =>
      if key_eqb k k' then (k', v) :: f' else (k', v') :: assign k v f'
  end.

(** [delete o[k]]. *)
Fixpoint remove (k : key) (f : props) : props :=
  match f with
  | [] => []
  | (k', v') :: f' =>
      if key_eqb k k' then remove k f' else (k', v') :: remove k f'
  end.

(** [o[k]], which is [undefined] for a missing key. *)
Definition read (k : key) (f : props) : value :=
  match lookup k f with Some v => v | None => VUndefined end.

(** [a[i] = r] on an array: indices past the end extend it. *)
Fixpoint set_index (i : nat) (r : value) (l : list value) : list value :=
  match i, l with
  | O, [] => [r]
  | O, _ :: l' => r :: l'
  | S i', [] => VUndefined :: set_index i' r []
  | S i', x :: l' => x :: set_index i' r l'
  end.

(** The decimal spelling of an array index, as used for its property key. *)
Definition index_key (i : nat) : string :=
  NilZero.string_of_uint (Nat.to_uint i).

Fixpoint indexed_from (i : nat) (l : list value) : list (string * value) :=
  match l with
  | [] => []
  | x :: l' => (index_key i, x) :: indexed_from (S i) l'
  end.

Fixpoint chars (s : string) : list value :=
  match s with
  | EmptyString => []
  | String c s' => VStr (String c EmptyString) :: chars s'
  end.

Fixpoint string_entries (f : props) : list (string * value) :=
  match f with
  | [] => []
  | (KStr s, v) :: f' => (s, v) :: string_entries f'
  | (KSym _, _) :: f' => string_entries f'
  end.

(** [Object.keys(v)] paired with the values: the own enumerable
    string-keyed properties, in enumeration order.  Arrays and strings
    expose their indices. *)
Definition own_entries (v : value) : list (string * value) :=
  match v with
  | VObj f | VInst _ f => string_entries f
  | VArr l => indexed_from 0 l
  | VStr s => indexed_from 0 (chars s)
  | _ => []
  end.

(** [Object.getOwnPropertySymbols(v)]. *)
Fixpoint symbol_keys (f : props) : list symbol :=
  match f with
  | [] => []
  | (KSym y, _) :: f' => y :: symbol_keys f'
  | (KStr _, _) :: f' => symbol_keys f'
  end.

(** Iteration over the string-keyed properties of an object and over the
    elements of an array, in enumeration order, threading a state. *)
Section Iteration.
Context {A : Type}.
Variable visit : string -> value -> A -> A.
Variable visit_at : nat -> value -> A -> A.

Fixpoint fold_fields (f : props) (acc : A) {struct f} : A :=
  match f with
  | [] => acc
  | (KStr key, v) :: f' => fold_fields f' (visit key v acc)
  | (KSym _, _) :: f' => fold_fields f' acc
  end.

Fixpoint fold_elems (i : nat) (l : list value) (acc : A) {struct l} : A :=
  match l with
  | [] => acc
  | v :: l' => fold_elems (S i) l' (visit_at i v acc)
  end.
End Iteration.

Definition own_symbols (v : value) : list symbol :=
  match v with
  | VObj f | VInst _ f => symbol_keys f
  | _ => []
  end.

End Js.

Import Js.

(* ================================================================== *)
(** ** The lodash primitives the helpers call *)
(* ================================================================== *)

Module Lodash.

(** [isPlainObject]. *)
Definition isPlainObject (v : value) : bool :=
  match v with VObj _ => true | _ => false end.

(** [isFunction]. *)
Definition isFunction (v : value) : bool :=
  match v with VFunc _ _ _ => true | _ => false end.

(** [_baseIsNative]. *)
Definition baseIsNative (v : value) : bool :=
  match v with VFunc _ n _ => n | _ => false end.

(** [forOwn(o, f)] and [forIn(o, f)] visit the enumerable string-keyed
    properties in enumeration order; nothing is visited for [null] and
    [undefined].  Symbol keys are never visited.  Values carry no
    prototype chain here, so both visit the same entries. *)
Definition forOwn_entries (v : value) : list (string * value) := own_entries v.
Definition forIn_entries (v : value) : list (string * value) := own_entries v.

End Lodash.

(* ================================================================== *)
(** ** Model metadata supplied by the surrounding ORM *)
(* ================================================================== *)

(** Modelled from the spec: [DataTypes] is imported from the surrounding
    ORM and is not part of these files.  The helpers only distinguish the
    "special column types", by [instanceof DataTypes.HSTORE] and
    [instanceof DataTypes.JSON]; every other type is an [OtherType]. *)
Inductive dataType : Type :=
| HSTORE
| JSON
| OtherType (n : nat).

(** Modelled from the spec: the "model metadata" the ORM supplies, whose
    declarations are not part of these files.  One entry of
    [Model.rawAttributes] gives the physical [field], the logical
    [fieldName] (either may be [undefined]) and the [type]. *)
Record rawAttribute : Type := {
  field : option string;
  fieldName : option string;
  type : dataType
}.

(** Modelled from the spec: a model, as far as the helpers look at it:
    the attribute-to-column mapping and the set of virtual attributes. *)
Record Model : Type := {
  rawAttributes : key -> option rawAttribute;
  _virtualAttributes : string -> bool
}.

(** A string-or-undefined as a value and as a property key
    (a property access with [undefined] uses the key ["undefined"]). *)
Definition opt_value (o : option string) : value :=
  match o with Some s => VStr s | None => VUndefined end.

Definition opt_key (o : option string) : key :=
  match o with Some s => KStr s | None => KStr "undefined" end.

Definition opt_eqb (a b : option string) : bool :=
  match a, b with
  | Some s, Some t => String.eqb s t
  | None, None => true
  | _, _ => false
  end.

(* ================================================================== *)
(** ** Strings *)
(* ================================================================== *)

Module Str.

Definition lower_ascii (c : ascii) : ascii :=
  let n := nat_of_ascii c in
  if (65 <=? n)%nat && (n <=? 90)%nat then ascii_of_nat (n + 32) else c.

(** [s.toLowerCase()], on ASCII text. *)
Fixpoint toLowerCase (s : string) : string :=
  match s with
  | EmptyString => EmptyString
  | String c s' => String (lower_ascii c) (toLowerCase s')
  end.

(** [s.endsWith(suffix)]. *)
Fixpoint endsWith (s suffix : string) : bool :=
  if String.eqb s suffix then true
  else match s with
       | EmptyString => false
       | String _ s' => endsWith s' suffix
       end.

(** [a.includes(x)] on an array of strings. *)
Definition includes (a : list string) (x : string) : bool :=
  existsb (String.eqb x) a.

End Str.

(* ================================================================== *)
(** ** [lodash/cloneDeepWith] *)
(* ================================================================== *)

Module LodashClone.

(** A customizer answers [None] when it returns [undefined], which makes
    lodash fall back to its own cloning. *)
Definition defined (v : value) : option value :=
  if is_undefined v then None else Some v.

(** lodash's [baseClone] with the deep and symbols flags set.  [nested]
    tells whether the value is being cloned as a property of a parent.
    Own string keys and own symbol keys are both copied. *)
Fixpoint baseClone (customizer : value -> option value) (nested : bool)
    (v : value) {struct v} : value :=
  match customizer v with
  | Some r => r
  | None =>
      match v with
      | VArr l => VArr (map (baseClone customizer true) l)
      | VObj f =>
          VObj (map (fun kv => (fst kv, baseClone customizer true (snd kv))) f)
      | VInst c f =>
          VInst c
            (map (fun kv => (fst kv, baseClone customizer true (snd kv))) f)
      | VFunc _ _ _ => if nested then v else VObj []
      | _ => v
      end
  end.

Definition cloneDeepWith (v : value) (customizer : value -> option value)
  : value :=
  baseClone customizer false v.

End LodashClone.

(* ================================================================== *)
(** ** [lodash/mergeWith] *)
(* ================================================================== *)

Module LodashMerge.

(** A property name met while enumerating a source: a name of an object
    or an index of an array. *)
Inductive pkey : Type :=
| PName (s : string)
| PIndex (i : nat).

Definition pkey_key (k : pkey) : key :=
  match k with PName s => KStr s | PIndex i => KStr (index_key i) end.

(** [object[key]]. *)
Definition get_prop (object : value) (k : pkey) : value :=
  match object, k with
  | VObj f, _ | VInst _ f, _ => read (pkey_key k) f
  | VArr l, PIndex i => nth i l VUndefined
  | _, _ => VUndefined
  end.

(** [key in object]. *)
Definition has_prop (object : value) (k : pkey) : bool :=
  match object, k with
  | VObj f, _ | VInst _ f, _ =>
      match lookup (pkey_key k) f with Some _ => true | None => false end
  | VArr l, PIndex i => (i <? List.length l)%nat
  | _, _ => false
  end.

(** [object[key] = v]; [None] for the targets this embedding does not
    cover (a named property on an array, a property on a primitive or a
    function). *)
Definition set_prop (object : value) (k : pkey) (v : value) : option value :=
  match object, k with
  | VObj f, _ => Some (VObj (assign (pkey_key k) v f))
  | VInst c f, _ => Some (VInst c (assign (pkey_key k) v f))
  | VArr l, PIndex i => Some (VArr (set_index i v l))
  | _, _ => None
  end.

(** [assignMergeValue]: an [undefined] value is only assigned when the
    key is missing.  (Assigning a value over an equal one changes
    nothing, so the equality test of the original is not needed.) *)
Definition assignMergeValue (object : value) (k : pkey) (v : value)
  : option value :=
  if is_undefined v && has_prop object k then Some object
  else set_prop object k v.

Definition isObject (v : value) : bool :=
  match v with
  | VArr _ | VObj _ | VInst _ _ | VFunc _ _ _ => true
  | _ => false
  end.

(** [isArrayLikeObject] and [copyArray] for the object values: an object
    is array-like when its [length] is a non-negative integer. *)
Definition arrayLikeLength (v : value) : option nat :=
  match v with
  | VObj f | VInst _ f =>
      match read (KStr "length") f with
      | VNum n => if (0 <=? n)%Z then Some (Z.to_nat n) else None
      | _ => None
      end
  | _ => None
  end.

Definition copyArray (v : value) (n : nat) : list value :=
  map (fun i => get_prop v (PIndex i)) (seq 0 n).

(** One property of the source, as [baseMerge] and [baseMergeDeep] treat
    it.  [recur target] is the nested [baseMerge] of this source value
    into [target]. *)
Definition mergeProp (customizer : value -> value -> option value)
    (recur : value -> option value) (k : pkey) (srcValue : value)
    (acc : option value) : option value :=
  match acc with
  | None => None
  | Some object =>
      let objValue := get_prop object k in
      match customizer objValue srcValue with
      | Some newValue => assignMergeValue object k newValue
      | None =>
          match srcValue with
          | VArr _ =>
              let target :=
                if isArray objValue then objValue
                else match arrayLikeLength objValue with
                     | Some n => VArr (copyArray objValue n)
                     | None => VArr []
                     end in
              match recur target with
              | Some newValue => assignMergeValue object k newValue
              | None => None
              end
          | VObj _ =>
              let target :=
                if isObject objValue && negb (Lodash.isFunction objValue)
                then objValue else VObj [] in
              match recur target with
              | Some newValue => assignMergeValue object k newValue
              | None => None
              end
          | _ => assignMergeValue object k srcValue
          end
      end
  end.

(** [baseMerge(object, source)]: the source's enumerable string-keyed
    properties are merged into [object], which is updated in place; the
    result is [object] after the merge.  Symbol keys of the source are not
    enumerated. *)
Fixpoint baseMerge (customizer : value -> value -> option value)
    (object : value) (source : value) {struct source} : option value :=
  let visit (k : pkey) (v : value) (acc : option value) : option value :=
    mergeProp customizer (fun t => baseMerge customizer t v) k v acc in
  match source with
  | VObj f | VInst _ f => fold_fields (fun s => visit (PName s)) f (Some object)
  | VArr l => fold_elems (fun i => visit (PIndex i)) O l (Some object)
  | _ => Some object
  end.

(** [mergeWith(object, source, customizer)] with one source: a falsy
    source is skipped. *)
Definition mergeWith (object source : value)
    (customizer : value -> value -> option value) : option value :=
  match object with
  | VObj _ | VInst _ _ | VArr _ =>
      if truthy source then baseMerge customizer object source
      else Some object
  | _ => None
  end.

End LodashMerge.

(* ================================================================== *)
(** ** [lib/utils/object.ts] *)
(* ================================================================== *)

Module ObjectUtils.

(** The customizer of [mergeDefaults]. *)
Definition defaultsCustomizer (objectValue sourceValue : value)
  : option value :=
  if negb (Lodash.isPlainObject objectValue)
     && negb (is_undefined objectValue)
  then
    if Lodash.isFunction objectValue && Lodash.baseIsNative objectValue
    then LodashClone.defined
           (if truthy sourceValue then sourceValue else objectValue)
    else LodashClone.defined objectValue
  else None.

(** [mergeDefaults(a, b)] updates [a] in place and returns it. *)
Definition mergeDefaults (a b : value) : option value :=
  LodashMerge.mergeWith a b defaultsCustomizer.

(** The callback of the [forOwn] in [merge]. *)
Definition mergeEntry (merge_ : list value -> option value)
    (acc : option props) (kv : string * value) : option props :=
  match acc with
  | None => None
  | Some result =>
      let '(key, value_) := kv in
      let current := read (KStr key) result in
      if is_undefined value_ then Some result
      else if negb (truthy current) then Some (assign (KStr key) value_ result)
      else if Lodash.isPlainObject value_ && Lodash.isPlainObject current then
        match merge_ [current; value_] with
        | Some r => Some (assign (KStr key) r result)
        | None => None
        end
      else
        match value_, current with
        | VArr xs, VArr ys => Some (assign (KStr key) (VArr (xs ++ ys)) result)
        | _, _ => Some (assign (KStr key) value_ result)
        end
  end.

(** [merge(...args)]; [fuel] bounds the depth of nested calls.  The
    result is a fresh object without prototype, which [isPlainObject]
    accepts. *)
Fixpoint merge (fuel : nat) (args : list value) : option value :=
  match fuel with
  | O => None
  | S fuel' =>
      option_map VObj
        (fold_left
           (fun acc obj =>
              fold_left (mergeEntry (merge fuel'))
                (Lodash.forOwn_entries obj) acc)
           args (Some []))
  end.

(** The customizer passed by [cloneDeep]. *)
Definition cloneCustomizer (onlyPlain : bool) (elem : value) : option value :=
  if isArray elem || Lodash.isPlainObject elem then None
  else if onlyPlain || typeof_object elem then LodashClone.defined elem
  else
    match elem with
    | VFunc _ _ (Some r) => LodashClone.defined r
    | _ => None
    end.

Definition cloneDeep (obj : value) (onlyPlain : bool) : value :=
  LodashClone.cloneDeepWith
    (if truthy obj then obj else VObj [])
    (cloneCustomizer onlyPlain).

(** [subPath ? `${subPath}.${key}` : key] *)
Definition pathToProperty (subPath : option string) (key : string) : string :=
  match subPath with
  | Some p => if truthy (VStr p) then p ++ "." ++ key else key
  | None => key
  end.

(** The inner [flattenObject], threading the shared [flattenedObj]. *)
Fixpoint flattenObject (obj : value) (subPath : option string)
    (flattenedObj : props) {struct obj} : props :=
  let visit (key : string) (v : value) (acc : props) : props :=
    let p := pathToProperty subPath key in
    if is_nonnull_object v then flattenObject v (Some p) acc
    else assign (KStr p) v acc in
  match obj with
  | VObj f | VInst _ f => fold_fields visit f flattenedObj
  | VArr l => fold_elems (fun i => visit (index_key i)) O l flattenedObj
  | _ => flattenedObj
  end.

Definition flattenObjectDeep (v : value) : value :=
  if Lodash.isPlainObject v then VObj (flattenObject v None []) else v.

End ObjectUtils.

(* ================================================================== *)
(** ** [lib/utils/format.ts] *)
(* ================================================================== *)

Module Format.

Import ObjectUtils.

(** *** Helpers that do not depend on the operator set *)

Definition combineTableNames (tableName1 tableName2 : string) : string :=
  if String.ltb (Str.toLowerCase tableName1) (Str.toLowerCase tableName2)
  then tableName1 ++ tableName2
  else tableName2 ++ tableName1.

(** One iteration of the loop of [mapValueFieldNames]. *)
Definition mapValueField (dataValues : props) (M : Model)
    (values : props) (attr : string) : props :=
  let v := read (KStr attr) dataValues in
  if negb (is_undefined v) && negb (_virtualAttributes M attr) then
    match rawAttributes M (KStr attr) with
    | Some raw =>
        if truthy (opt_value (field raw))
           && negb (opt_eqb (field raw) (Some attr))
        then assign (opt_key (field raw)) v values
        else assign (KStr attr) v values
    | None => assign (KStr attr) v values
    end
  else values.

Definition mapValueFieldNames (dataValues : props) (fields : list string)
    (M : Model) : props :=
  fold_left (mapValueField dataValues M) fields [].

(** The [options] argument of [removeNullValuesFromHash]. *)
Record nullOptions : Type := { allowNull : option (list string) }.

(** The callback of the [forIn] in [removeNullValuesFromHash]. *)
Definition keepEntry (allow : list string) (_hash : props)
    (kv : string * value) : props :=
  let '(key, val) := kv in
  if Str.includes allow key
     || Str.endsWith key "Id"
     || negb (is_nullish val)
  then assign (KStr key) val _hash
  else _hash.

(** Returns the result and the [options] object as the call leaves it
    ([options.allowNull] is assigned before anything else happens). *)
Definition removeNullValuesFromHash (hash : value) (omitNull : bool)
    (options : nullOptions) : value * nullOptions :=
  let allow := match allowNull options with Some a => a | None => [] end in
  let options' := {| allowNull := Some allow |} in
  if omitNull then
    (VObj (fold_left (keepEntry allow) (Lodash.forIn_entries hash) []),
     options')
  else (hash, options').

Definition generateEnumName (tableName columnName : string) : string :=
  "enum_" ++ tableName ++ "_" ++ columnName.

(** *** Keys of a where-object *)

Section WithOperators.

(** Membership in [operatorsSet], the set of the values of [Op]; [Op] is
    imported from the surrounding ORM, so the set is a parameter here. *)
Variable operatorsSet : symbol -> bool.

Definition getOperators (obj : value) : list symbol :=
  filter operatorsSet (own_symbols obj).

Definition getComplexKeys (obj : value) : list key :=
  map KSym (getOperators obj)
  ++ map (fun kv => KStr (fst kv)) (own_entries obj).

(** *** Mapping of field names in attributes and where conditions *)

(** The callback of [options.attributes.map]. *)
Definition mapAttribute (M : Model) (attr : value) : value :=
  match attr with
  | VStr a =>
      match rawAttributes M (KStr a) with
      | Some raw =>
          if negb (opt_eqb (Some a) (field raw))
          then VArr [opt_value (field raw); VStr a]
          else attr
      | None => attr
      end
  | _ => attr
  end.

(** [mapOptionFieldNames] assigns into the caller's [options] object and
    returns that same object: the properties computed here are those of
    [options] once the call has returned.  [mapWhere] stands for the
    recursive call to [mapWhereFieldNames]. *)
Definition mapOptionFieldNames_with (mapWhere : value -> option value)
    (options : props) (M : Model) : option props :=
  let options1 :=
    match read (KStr "attributes") options with
    | VArr l =>
        assign (KStr "attributes") (VArr (map (mapAttribute M) l)) options
    | _ => options
    end in
  let where_ := read (KStr "where") options1 in
  if truthy where_ && Lodash.isPlainObject where_ then
    match mapWhere where_ with
    | Some w => Some (assign (KStr "where") w options1)
    | None => None
    end
  else Some options1.

Definition is_hstore_or_json (t : dataType) : bool :=
  match t with HSTORE | JSON => true | OtherType _ => false end.

(** How many times [for (let i = 0; i < x; i++)] iterates, for the values
    of [x] whose conversion to a number is covered here; [None] for the
    others (strings and objects).  The loop body below never writes the
    [length] property of the where-object, so the bound is fixed when the
    loop starts. *)
Definition loop_bound (x : value) : option nat :=
  match x with
  | VUndefined | VNull => Some O
  | VBool b => Some (if b then 1%nat else O)
  | VNum n => Some (Z.to_nat n)
  | _ => None
  end.

(** First statement of the loop body: move the value to the physical
    field name and delete the logical one. *)
Definition renameField (M : Model) (attributeName : key) (attributes : props)
  : props :=
  match rawAttributes M attributeName with
  | Some raw =>
      if negb (opt_eqb (field raw) (fieldName raw))
      then remove attributeName
             (assign (opt_key (field raw)) (read attributeName attributes)
                attributes)
      else attributes
  | None => attributes
  end.

Definition skipsNested (M : Model) (attributeName : key) : bool :=
  match rawAttributes M attributeName with
  | Some raw => is_hstore_or_json (type raw)
  | None => false
  end.

(** Second statement: recurse into a plain-object value still found under
    [attributeName]. *)
Definition mapNested (mapWhere : value -> option value) (M : Model)
    (attributeName : key) (attributes : props) : option props :=
  let v := read attributeName attributes in
  if Lodash.isPlainObject v && negb (skipsNested M attributeName) then
    match mapOptionFieldNames_with mapWhere [(KStr "where", v)] M with
    | Some o => Some (assign attributeName (read (KStr "where") o) attributes)
    | None => None
    end
  else Some attributes.

(** Body of the inner [for] loop at index [i]: it reads [attributes[i]],
    a property of the where-object itself, and writes
    [attributes[attributeName][i]]. *)
Definition mapElement (mapWhere : value -> option value)
    (attributeName : key) (acc : option props) (i : nat) : option props :=
  match acc with
  | None => None
  | Some attributes =>
      let where_ := read (KStr (index_key i)) attributes in
      if Lodash.isPlainObject where_ then
        match mapWhere where_, read attributeName attributes with
        | Some w, VArr l =>
            Some (assign attributeName (VArr (set_index i w l)) attributes)
        | _, _ => None
        end
      else Some attributes
  end.

(** Third statement: the loop over [i < attributes.length]. *)
Definition mapElements (mapWhere : value -> option value)
    (attributeName : key) (attributes : props) : option props :=
  if isArray (read attributeName attributes) then
    match loop_bound (read (KStr "length") attributes) with
    | Some n =>
        fold_left (mapElement mapWhere attributeName) (seq 0 n)
          (Some attributes)
    | None => None
    end
  else Some attributes.

(** One iteration of the loop over [getComplexKeys(attributes)]. *)
Definition mapKey (mapWhere : value -> option value) (M : Model)
    (acc : option props) (attributeName : key) : option props :=
  match acc with
  | None => None
  | Some attributes =>
      match mapNested mapWhere M attributeName
              (renameField M attributeName attributes) with
      | Some attributes2 => mapElements mapWhere attributeName attributes2
      | None => None
      end
  end.

(** [mapWhereFieldNames].  [fuel] bounds the depth of nested calls; the
    answer is [None] when it runs out, and for the arguments this
    embedding does not cover (truthy strings, arrays, functions and
    non-plain objects passed as the where-object itself). *)
Fixpoint mapWhereFieldNames (fuel : nat) (attributes : value) (M : Model)
  : option value :=
  match fuel with
  | O => None
  | S fuel' =>
      if negb (truthy attributes) then Some attributes
      else
        let attributes1 := cloneDeep attributes false in
        match attributes1 with
        | VObj f =>
            option_map VObj
              (fold_left
                 (mapKey (fun w => mapWhereFieldNames fuel' w M) M)
                 (getComplexKeys attributes1) (Some f))
        | VNum _ | VBool _ => Some attributes1
        | _ => None
        end
  end.

Definition mapOptionFieldNames (fuel : nat) (options : props) (M : Model)
  : option props :=
  mapOptionFieldNames_with (fun w => mapWhereFieldNames fuel w M) options M.

End WithOperators.

End Format.

(* ================================================================== *)
(** ** Vocabulary for stating the properties *)
(* ================================================================== *)

Import ObjectUtils Format.

(** The key under which [mapValueFieldNames] files an attribute: the
    physical field name when the model declares one that differs from the
    attribute name, the attribute name otherwise. *)
Definition valueKey (M : Model) (attr : string) : key :=
  match rawAttributes M (KStr attr) with
  | Some raw =>
      match field raw with
      | Some f =>
          if negb (String.eqb f "") && negb (String.eqb f attr)
          then KStr f else KStr attr
      | None => KStr attr
      end
  | None => KStr attr
  end.

(** An attribute contributes an entry when its data value is not
    [undefined] and it is not virtual. *)
Definition contributes (dataValues : props) (M : Model) (attr : string)
  : bool :=
  negb (is_undefined (read (KStr attr) dataValues))
  && negb (_virtualAttributes M attr).

(** The result of [mapValueFieldNames] as described entry by entry: one
    entry per contributing attribute of the list, and nothing else. *)
Definition one_entry_per_field (dataValues : props) (fields : list string)
    (M : Model) (result : props) : Prop :=
  (forall attr, In attr fields -> contributes dataValues M attr = true ->
     lookup (valueKey M attr) result = Some (read (KStr attr) dataValues))
  /\ (forall k v, lookup k result = Some v ->
        exists attr, In attr fields /\ contributes dataValues M attr = true
                     /\ k = valueKey M attr
                     /\ v = read (KStr attr) dataValues).

(** A model whose attribute [a] is stored in column [b]. *)
Definition collidingModel : Model :=
  {| rawAttributes := fun k =>
       match k with
       | KStr "a" =>
           Some {| field := Some "b"; fieldName := Some "a";
                   type := OtherType 0 |}
       | _ => None
       end;
     _virtualAttributes := fun _ => false |}.

(** The value of the enumerable string-keyed property [key] of a hash,
    if it has one. *)
Fixpoint find_entry (key : string) (es : list (string * value))
  : option value :=
  match es with
  | [] => None
  | (k, v) :: es' => if String.eqb key k then Some v else find_entry key es'
  end.

Definition hash_entry (hash : value) (key : string) : option value :=
  find_entry key (own_entries hash).

(** An object lists each of its keys once. *)
Definition distinct_keys (hash : value) : Prop :=
  NoDup (map fst (own_entries hash)).

(** The entries [removeNullValuesFromHash] keeps when [omitNull] is set:
    those whose value is neither [null] nor [undefined], and those whose
    key ends with [Id] or is listed in [allowNull]. *)
Definition kept (options : nullOptions) (key : string) (val : value) : bool :=
  negb (is_nullish val)
  || Str.endsWith key "Id"
  || match allowNull options with
     | Some a => Str.includes a key
     | None => false
     end.

(** The body of the loop of [flattenObject] for one key. *)
Definition flattenVisit (subPath : option string) (key : string)
    (v : value) (acc : props) : props :=
  let p := pathToProperty subPath key in
  if is_nonnull_object v then flattenObject v (Some p) acc
  else assign (KStr p) v acc.

(** [reaches v path u]: following the string keys of [path] through
    nested objects and arrays, starting at [v], leads to [u]. *)
Inductive reaches : value -> list string -> value -> Prop :=
| reaches_here (v : value) : reaches v [] v
| reaches_step (v w u : value) (key : string) (path : list string) :
    is_nonnull_object v = true ->
    In (key, w) (own_entries v) ->
    reaches w path u ->
    reaches v (key :: path) u.

(** The key [flattenObject] builds for a path, starting from [subPath]. *)
Definition joinPath (subPath : option string) (path : list string)
  : option string :=
  fold_left (fun p key => Some (pathToProperty p key)) path subPath.

(** The flattened object as described: every key is the dot-joined path
    to a leaf of the input, and carries that leaf. *)
Definition dot_joined_leaves (input : value) (result : props) : Prop :=
  forall k v, lookup k result = Some v ->
    is_nonnull_object v = false
    /\ exists path, reaches input path v /\ k = KStr (String.concat "." path).

(** What a key found in the flattened object stands for. *)
Definition flat_origin (obj : value) (subPath : option string)
    (k : key) (v : value) : Prop :=
  is_nonnull_object v = false
  /\ exists path s, path <> [] /\ reaches obj path v
                    /\ joinPath subPath path = Some s /\ k = KStr s.

(** Nesting depth of a value, counting what a [clone] method returns. *)
Fixpoint depth (v : value) : nat :=
  match v with
  | VArr l => S (list_max (map depth l))
  | VObj f => S (list_max (map (fun kv => depth (snd kv)) f))
  | VInst _ f => S (list_max (map (fun kv => depth (snd kv)) f))
  | VFunc _ _ (Some r) => S (depth r)
  | _ => O
  end.

Definition is_length (k : key) : bool := key_eqb k (KStr "length").

(** No plain object inside the value has a property called [length]. *)
Fixpoint no_length_key (v : value) : bool :=
  match v with
  | VArr l => forallb no_length_key l
  | VObj f =>
      forallb (fun kv => negb (is_length (fst kv)) && no_length_key (snd kv)) f
  | VInst _ f => forallb (fun kv => no_length_key (snd kv)) f
  | VFunc _ _ (Some r) => no_length_key r
  | _ => true
  end.

(** No attribute of the model is stored in a column called [length]. *)
Definition no_length_field (M : Model) : Prop :=
  forall k raw, rawAttributes M k = Some raw -> field raw <> Some "length".

(** Invariant of the where-object while its keys are being processed. *)
Definition entry_ok (d : nat) (kv : key * value) : Prop :=
  is_length (fst kv) = false
  /\ no_length_key (snd kv) = true
  /\ depth (snd kv) <= d.

Definition props_ok (d : nat) (f : props) : Prop := Forall (entry_ok d) f.

(** A cloning function keeps a value inside the fragment and does not
    deepen it. *)
Definition clone_ok (g : value -> value) (x : value) : Prop :=
  no_length_key x = true ->
  no_length_key (g x) = true /\ depth (g x) <= depth x.

(** What the recursive call is known to do on where-objects of depth at
    most [d]. *)
Definition rec_ok (d : nat) (mapWhere : value -> option value) : Prop :=
  forall w, Lodash.isPlainObject w = true -> no_length_key w = true ->
    depth w <= d ->
    exists w', mapWhere w = Some w'
               /\ Lodash.isPlainObject w' = true
               /\ no_length_key w' = true
               /\ depth w' <= depth w.

(** A model with one renamed attribute ([firstName], stored in column
    [first_name]) and one JSON attribute ([meta]). *)
Definition exampleModel : Model :=
  {| rawAttributes := fun k =>
       match k with
       | KStr "firstName" =>
           Some {| field := Some "first_name"; fieldName := Some "firstName";
                   type := OtherType 0 |}
       | KStr "meta" =>
           Some {| field := Some "meta"; fieldName := Some "meta";
                   type := JSON |}
       | _ => None
       end;
     _virtualAttributes := fun _ => false |}.

(** An operator set: the symbols numbered below ten stand for the values
    of [Op]; symbol 1 plays the role of [Op.or]. *)
Definition exampleOperators (y : symbol) : bool := (y <? 10)%nat.

(** The entry that replaces [attr] in a mapped attribute list, case by
    case as described: a string naming a raw attribute stored under
    another field name becomes the pair [[field, attr]]; anything else
    stays. *)
Definition aliased_entry (M : Model) (attr entry : value) : Prop :=
  (forall a raw, attr = VStr a -> rawAttributes M (KStr a) = Some raw ->
     field raw <> Some a -> entry = VArr [opt_value (field raw); VStr a])
  /\ ((forall a, attr <> VStr a) -> entry = attr)
  /\ (forall a, attr = VStr a -> rawAttributes M (KStr a) = None ->
        entry = attr)
  /\ (forall a raw, attr = VStr a -> rawAttributes M (KStr a) = Some raw ->
        field raw = Some a -> entry = attr).

(** A key is renamed when it names a raw attribute whose physical field
    differs from its logical field name; [physical] is the key it is moved
    to, and [slot] the key under which its value ends up. *)
Definition renamed (M : Model) (k : key) : bool :=
  match rawAttributes M k with
  | Some raw => negb (opt_eqb (field raw) (fieldName raw))
  | None => false
  end.

Definition physical (M : Model) (k : key) : key :=
  match rawAttributes M k with
  | Some raw => opt_key (field raw)
  | None => k
  end.

Definition slot (M : Model) (k : key) : key :=
  if renamed M k then physical M k else k.

(** No other key of the where-object is moved onto [k] or onto the slot
    of [k], and [k] itself is not moved onto another key of the object. *)
Definition undisturbed (M : Model) (keys : list key) (k : key) : Prop :=
  (forall k', In k' keys -> k' <> k -> renamed M k' = true ->
     physical M k' <> k /\ physical M k' <> slot M k)
  /\ (renamed M k = true -> ~ In (physical M k) keys).

(** The deep clone of a property value. *)
Definition cloned (v : value) : value :=
  LodashClone.baseClone (cloneCustomizer false) true v.

(** No function carrying a [clone] method occurs among the arrays and
    plain objects of the value. *)
Fixpoint no_clone_method (v : value) : bool :=
  match v with
  | VArr l => forallb no_clone_method l
  | VObj f => forallb (fun kv => no_clone_method (snd kv)) f
  | VFunc _ _ (Some _) => false
  | _ => true
  end.

(** The where-mapping as described for nested objects: the plain-object
    value of a key of an HSTORE or JSON attribute is left as it is, and
    the plain-object value of every other key is replaced by its own
    mapping. *)
Definition nested_mapped_unless_skipped (operatorsSet : symbol -> bool)
    (M : Model) (w r : props) : Prop :=
  forall k g,
    In k (getComplexKeys operatorsSet (VObj w)) ->
    lookup k w = Some (VObj g) ->
    (skipsNested M k = true -> lookup (slot M k) r = Some (VObj g))
    /\ (skipsNested M k = false ->
        exists fuel w',
          mapWhereFieldNames operatorsSet fuel (VObj g) M = Some w'
          /\ lookup (slot M k) r = Some w').

(** A call of [mapOptionFieldNames] that leaves the caller's options
    object as it found it. *)
Definition leaves_options_unchanged (operatorsSet : symbol -> bool)
    (fuel : nat) (M : Model) (options : props) : Prop :=
  forall after,
    mapOptionFieldNames operatorsSet fuel options M = Some after ->
    after = options.

(** An output that keeps every operator-symbol key of an input object
    with its value. *)
Definition keeps_operator_keys (operatorsSet : symbol -> bool)
    (input : props) (output : value) : Prop :=
  forall y v, operatorsSet y = true -> lookup (KSym y) input = Some v ->
    exists fo, output = VObj fo /\ lookup (KSym y) fo = Some v.

(** Targets on which a named property, or an index, can be set. *)
Definition named_target (o : value) : bool :=
  match o with VObj _ | VInst _ _ => true | _ => false end.

Definition indexed_target (o : value) : bool :=
  match o with VObj _ | VInst _ _ | VArr _ => true | _ => false end.

Definition target_for (source o : value) : bool :=
  match source with
  | VObj _ | VInst _ _ => named_target o
  | _ => indexed_target o
  end.

(** A property key that can be set on the target [o]. *)
Definition key_fits (k : LodashMerge.pkey) (o : value) : bool :=
  match k with
  | LodashMerge.PName _ => named_target o
  | LodashMerge.PIndex _ => indexed_target o
  end.

(** [r] is the object [o] after assignments to string-keyed properties or
    indices only: same kind of object, same symbol-keyed properties. *)
Definition same_symbols (o r : value) : Prop :=
  match o, r with
  | VObj f, VObj f' => forall y, lookup (KSym y) f' = lookup (KSym y) f
  | VInst c f, VInst c' f' =>
      c = c' /\ forall y, lookup (KSym y) f' = lookup (KSym y) f
  | VArr _, VArr _ => True
  | _, _ => False
  end.

(** What merging a source into any suitable target is known to do. *)
Definition merges_ok (merge_into : value -> option value) (source : value)
  : Prop :=
  forall o, target_for source o = true ->
    exists r, merge_into o = Some r /\ same_symbols o r.

(** An object without symbol-keyed properties. *)
Definition symbol_free (result : props) : Prop :=
  forall y, lookup (KSym y) result = None.

(** Every property value of the object is of depth at most [n]. *)
Definition values_below (n : nat) (result : props) : Prop :=
  Forall (fun kv => depth (snd kv) <= n) result.

Definition entries_below (n : nat) (v : value) : Prop :=
  Forall (fun kv : string * value => depth (snd kv) <= n) (own_entries v).

(** What the nested call of [merge] is known to do on two plain objects
    of depth at most [n]. *)
Definition merge_rec_ok (n : nat) (merge_ : list value -> option value)
  : Prop :=
  forall cur val,
    Lodash.isPlainObject cur = true -> Lodash.isPlainObject val = true ->
    depth cur <= n -> depth val <= n ->
    exists r, merge_ [cur; val] = Some (VObj r) /\ depth (VObj r) <= n.

(* ================================================================== *)
(** ** The remaining helpers of [lib/utils/object.ts] and
       [lib/utils/format.ts] *)
(* ================================================================== *)

Module Rest.

(** [v[k]] for any value: own properties of objects, elements of arrays
    and characters of strings by their index. *)
Definition prop_of (v : value) (k : key) : value :=
  match v with
  | VObj f | VInst _ f => read k f
  | VArr _ | VStr _ =>
      match k with
      | KStr s =>
          match find_entry s (own_entries v) with
          | Some x => x
          | None => VUndefined
          end
      | KSym _ => VUndefined
      end
  | _ => VUndefined
  end.

(** [Object.prototype.hasOwnProperty.call(o, k)]. *)
Definition hasOwn (k : key) (o : props) : bool :=
  match lookup k o with Some _ => true | None => false end.

(** [Object.prototype[key]]: objects carry no prototype chain in this
    representation, so the prototype has no property. *)
Definition objectPrototype (k : key) : value := VUndefined.

(** lodash [eq] against a primitive: the same primitive value.  (Two
    objects would be compared by reference; the only second argument
    used here is a property of [objectPrototype].) *)
Definition isEqual (a b : value) : bool :=
  match a, b with
  | VUndefined, VUndefined | VNull, VNull => true
  | VBool x, VBool y => Bool.eqb x y
  | VNum x, VNum y => Z.eqb x y
  | VStr x, VStr y => String.eqb x y
  | _, _ => false
  end.

Section WithOperators.
Variable operatorsSet : symbol -> bool.

(** The body of the inner loop of [defaults], for one key of one source;
    [objectIn] is updated in place. *)
Definition defaultsKey (source : value) (objectIn : props) (k : key)
  : props :=
  let value_ := read k objectIn in
  if is_undefined value_
     || isEqual value_ (objectPrototype k) && negb (hasOwn k objectIn)
  then assign k (prop_of source k) objectIn
  else objectIn.

(** [defaults(objectIn, ...sources)]: the properties of [objectIn] when
    the call returns (it returns [objectIn] itself). *)
Definition defaults (objectIn : props) (sources : list value) : props :=
  fold_left
    (fun o source =>
       if truthy source
       then fold_left (defaultsKey source)
              (getComplexKeys operatorsSet source) o
       else o)
    sources objectIn.

(** [Model._injectDependentVirtualAttributes] belongs to the surrounding
    ORM; it is a parameter here, answering an array or [undefined]. *)
Variable injectDependentVirtualAttributes :
  list value -> option (list value).

(** [Model._virtualAttributes.has(v)]: the set holds attribute names. *)
Definition isVirtual (M : Model) (v : value) : bool :=
  match v with VStr s => _virtualAttributes M s | _ => false end.

(** [mapFinderOptions]: the properties of the caller's [options] when the
    call returns. *)
Definition mapFinderOptions (fuel : nat) (options : props) (M : Model)
  : option props :=
  let options2 :=
    match read (KStr "attributes") options with
    | VArr l =>
        let options1 :=
          assign (KStr "attributes")
            (match injectDependentVirtualAttributes l with
             | Some l' => VArr l'
             | None => VUndefined
             end) options in
        assign (KStr "attributes")
          (match read (KStr "attributes") options1 with
           | VArr l' => VArr (filter (fun v => negb (isVirtual M v)) l')
           | _ => VUndefined
           end) options1
    | _ => options
    end in
  mapOptionFieldNames operatorsSet fuel options2 M.

End WithOperators.

(** [camelize] comes from [./string], which is not among these files; it
    is a parameter of [camelizeObjectKeys]. *)
Definition camelizeObjectKeys (camelize : string -> string) (obj : value)
  : props :=
  fold_left
    (fun newObj key =>
       assign (KStr (camelize key)) (prop_of obj (KStr key)) newObj)
    (map fst (own_entries obj)) [].

End Rest.

(** The value [defaults] leaves under a key: starting from the value the
    object has, each source in turn supplies its own when the current one
    is [undefined] and the key is one of the source's complex keys. *)
Definition firstDefined (operatorsSet : symbol -> bool) (k : key)
    (cur : value) (sources : list value) : value :=
  fold_left
    (fun cur s =>
       if is_undefined cur && truthy s
          && existsb (key_eqb k) (getComplexKeys operatorsSet s)
       then Rest.prop_of s k else cur)
    sources cur.

(** A string-keyed entry as a property. *)
Definition as_property (kv : string * value) : key * value :=
  (KStr (fst kv), snd kv).

Definition kept_entry (options : nullOptions) (kv : string * value) : bool :=
  kept options (fst kv) (snd kv).

(** A flat object: string keys, each once, holding leaves. *)
Definition flat (f : props) : Prop :=
  NoDup (map fst f)
  /\ Forall (fun kv => (exists s, fst kv = KStr s)
                       /\ is_nonnull_object (snd kv) = false) f.

(** What [merge] does to one key when it meets the value [v] of an
    argument while the result holds [cur] under that key ([undefined]
    when it has none): the outer [None] is the nested call giving no
    answer, [Some None] leaves the result as it is, and [Some (Some x)]
    assigns [x]. *)
Definition mergedValue (merge_ : list value -> option value)
    (cur v : value) : option (option value) :=
  if is_undefined v then Some None
  else if negb (truthy cur) then Some (Some v)
  else if Lodash.isPlainObject v && Lodash.isPlainObject cur then
    match merge_ [cur; v] with
    | Some x => Some (Some x)
    | None => None
    end
  else
    match v, cur with
    | VArr xs, VArr ys => Some (Some (VArr (xs ++ ys)))
    | _, _ => Some (Some v)
    end.

(** The property a first argument leaves under a key. *)
Definition firstValue (a : value) (key : string) : option value :=
  match hash_entry a key with
  | Some v => if is_undefined v then None else Some v
  | None => None
  end.

(** A value [mergeDefaults] treats as already assigned: not [undefined],
    not a plain object, and not a native function. *)
Definition settled (o : value) : bool :=
  negb (is_undefined o) && negb (Lodash.isPlainObject o)
  && negb (Lodash.baseIsNative o).

(** [exampleModel] with a virtual attribute [fullName]. *)
Definition virtualModel : Model :=
  {| rawAttributes := rawAttributes exampleModel;
     _virtualAttributes := fun s => String.eqb s "fullName" |}.

(** An injection of dependent attributes: [fullName] depends on
    [firstName]. *)
Definition exampleInject (l : list value) : option (list value) :=
  Some (l ++ [VStr "firstName"])%list.

(* ================================================================== *)
(** * Properties *)
(* ================================================================== *)

(** ** The helpers on small inputs *)

(** The example of the documentation of [flattenObjectDeep]. *)
Example flattenObjectDeep_documented :
  flattenObjectDeep
    (VObj [(KStr "name", VStr "John");
           (KStr "address",
            VObj [(KStr "street", VStr "Fake St. 123");
                  (KStr "coordinates",
                   VObj [(KStr "longitude", VNum 55);
                         (KStr "latitude", VNum 12)])])])
  = VObj [(KStr "name", VStr "John");
          (KStr "address.street", VStr "Fake St. 123");
          (KStr "address.coordinates.longitude", VNum 55);
          (KStr "address.coordinates.latitude", VNum 12)].
Proof. reflexivity. Qed.

Example flattenObjectDeep_array :
  flattenObjectDeep (VObj [(KStr "tags", VArr [VStr "a"; VNull])])
  = VObj [(KStr "tags.0", VStr "a"); (KStr "tags.1", VNull)].
Proof. reflexivity. Qed.

Example merge_nested :
  merge 3
    [VObj [(KStr "where", VObj [(KStr "a", VNum 1)]);
           (KStr "order", VArr [VStr "x"])];
     VObj [(KStr "where", VObj [(KStr "b", VNum 2)]);
           (KStr "order", VArr [VStr "y"]);
           (KStr "limit", VUndefined)]]
  = Some (VObj [(KStr "where", VObj [(KStr "a", VNum 1); (KStr "b", VNum 2)]);
                (KStr "order", VArr [VStr "y"; VStr "x"])]).
Proof. reflexivity. Qed.

Example mergeDefaults_keeps_assigned :
  mergeDefaults
    (VObj [(KStr "limit", VNum 5); (KStr "where", VObj [(KStr "a", VNum 1)])])
    (VObj [(KStr "limit", VNum 10); (KStr "raw", VBool true);
           (KStr "where", VObj [(KStr "a", VNum 0); (KStr "b", VNum 2)])])
  = Some (VObj [(KStr "limit", VNum 5);
                (KStr "where", VObj [(KStr "a", VNum 1); (KStr "b", VNum 2)]);
                (KStr "raw", VBool true)]).
Proof. reflexivity. Qed.

Example cloneDeep_keeps_instances :
  cloneDeep
    (VObj [(KStr "model", VInst 7 [(KStr "name", VStr "User")]);
           (KStr "fn", VFunc 3 false (Some (VStr "copy")));
           (KSym 1, VArr [VNum 1])])
    false
  = VObj [(KStr "model", VInst 7 [(KStr "name", VStr "User")]);
          (KStr "fn", VStr "copy");
          (KSym 1, VArr [VNum 1])].
Proof. reflexivity. Qed.

Example mapOptionFieldNames_where :
  mapOptionFieldNames exampleOperators 3
    [(KStr "attributes", VArr [VStr "firstName"; VStr "id"]);
     (KStr "where",
      VObj [(KSym 1, VObj [(KStr "firstName", VStr "Paul")]);
            (KStr "firstName", VStr "Ada")])]
    exampleModel
  = Some [(KStr "attributes",
           VArr [VArr [VStr "first_name"; VStr "firstName"]; VStr "id"]);
          (KStr "where",
           VObj [(KSym 1, VObj [(KStr "first_name", VStr "Paul")]);
                 (KStr "first_name", VStr "Ada")])].
Proof. reflexivity. Qed.

Example getComplexKeys_operators_first :
  getComplexKeys exampleOperators
    (VObj [(KStr "a", VNum 1); (KSym 1, VNum 2); (KSym 50, VNum 3)])
  = [KSym 1; KStr "a"].
Proof. reflexivity. Qed.

Example generateEnumName_joined :
  generateEnumName "users" "role" = "enum_users_role".
Proof. reflexivity. Qed.

(** ** Facts about keys and property lists *)

Lemma key_eqb_eq (a b : key) : key_eqb a b = true <-> a = b.
Proof.
  destruct a as [s|x], b as [t|y]; simpl; split; intros H;
    try discriminate; try congruence.
  - apply String.eqb_eq in H. now subst.
  - injection H as ->. apply String.eqb_refl.
  - apply Nat.eqb_eq in H. now subst.
  - injection H as ->. apply Nat.eqb_refl.
Qed.

Lemma key_eqb_refl (a : key) : key_eqb a a = true.
Proof. now apply key_eqb_eq. Qed.

Lemma key_eqb_neq (a b : key) : key_eqb a b = false <-> a <> b.
Proof.
  split.
  - intros H E. apply key_eqb_eq in E. congruence.
  - intros H. destruct (key_eqb a b) eqn:E; [|reflexivity].
    apply key_eqb_eq in E. contradiction.
Qed.

Lemma key_eqb_sym (a b : key) : key_eqb a b = key_eqb b a.
Proof.
  destruct (key_eqb a b) eqn:E.
  - apply key_eqb_eq in E. subst. now rewrite key_eqb_refl.
  - symmetry. apply key_eqb_neq. apply key_eqb_neq in E. congruence.
Qed.

Ltac key_cases a b :=
  let E := fresh "E" in
  destruct (key_eqb a b) eqn:E;
  [apply key_eqb_eq in E | apply key_eqb_neq in E].

Lemma lookup_assign (k k' : key) (v : value) (f : props) :
  lookup k (assign k' v f) = if key_eqb k k' then Some v else lookup k f.
Proof.
  induction f as [|[k0 v0] f IH]; simpl.
  - reflexivity.
  - key_cases k' k0; simpl.
    + subst. now destruct (key_eqb k k0).
    + rewrite IH. key_cases k k0; [|reflexivity].
      subst. key_cases k0 k'; congruence.
Qed.

Lemma lookup_remove (k k' : key) (f : props) :
  lookup k (remove k' f) = if key_eqb k k' then None else lookup k f.
Proof.
  induction f as [|[k0 v0] f IH]; simpl.
  - now destruct (key_eqb k k').
  - key_cases k' k0; simpl.
    + subst. rewrite IH. now destruct (key_eqb k k0).
    + rewrite IH. key_cases k k0; [|reflexivity].
      subst. key_cases k0 k'; congruence.
Qed.

Lemma read_assign (k k' : key) (v : value) (f : props) :
  read k (assign k' v f) = if key_eqb k k' then v else read k f.
Proof. unfold read. rewrite lookup_assign. now destruct (key_eqb k k'). Qed.

(** ** combineTableNames *)

Lemma ltb_total (s t : string) :
  s <> t -> String.ltb s t = negb (String.ltb t s).
Proof.
  intros Hne. unfold String.ltb. rewrite (String.compare_antisym t s).
  destruct (String.compare s t) eqn:E; simpl; try reflexivity.
  apply String.compare_eq_iff in E. contradiction.
Qed.



(** ** mapValueFieldNames *)

Lemma mapValueField_lookup (d : props) (M : Model) (values : props)
    (attr : string) (k : key) :
  lookup k (mapValueField d M values attr) =
  if contributes d M attr && key_eqb k (valueKey M attr)
  then Some (read (KStr attr) d)
  else lookup k values.
Proof.
  unfold mapValueField, contributes, valueKey.
  destruct (negb (is_undefined (read (KStr attr) d))
            && negb (_virtualAttributes M attr)); simpl; [|reflexivity].
  destruct (rawAttributes M (KStr attr)) as [raw|];
    [|now rewrite lookup_assign].
  destruct (field raw) as [f|]; simpl.
  - destruct (negb (String.eqb f "") && negb (String.eqb f attr));
      now rewrite lookup_assign.
  - now rewrite lookup_assign.
Qed.

(** C10, as the code has it: the value found under a key of the result is
    the data value of the last listed attribute that contributes an entry
    under that key, and a key under which no listed attribute files an
    entry is absent. *)
Theorem mapValueFieldNames_lookup (d : props) (fields : list string)
    (M : Model) (k : key) :
  lookup k (mapValueFieldNames d fields M) =
  option_map (fun attr => read (KStr attr) d)
    (find (fun attr => contributes d M attr && key_eqb k (valueKey M attr))
       (rev fields)).
Proof.
  unfold mapValueFieldNames.
  induction fields as [|attr fields IH] using rev_ind; [reflexivity|].
  rewrite fold_left_app, rev_app_distr. simpl.
  rewrite mapValueField_lookup.
  destruct (contributes d M attr && key_eqb k (valueKey M attr)); simpl;
    [reflexivity | exact IH].
Qed.

(** C10 fails as stated when two listed attributes are filed under the
    same key: with attribute [a] stored in column [b] and an attribute
    [b] of its own, the entry for [a] is overwritten. *)
Lemma mapValueFieldNames_collision :
  ~ one_entry_per_field
      [(KStr "a", VNum 1); (KStr "b", VNum 2)] ["a"; "b"] collidingModel
      (mapValueFieldNames
         [(KStr "a", VNum 1); (KStr "b", VNum 2)] ["a"; "b"] collidingModel).
Proof.
  intros [H _].
  specialize (H "a" (or_introl eq_refl) eq_refl).
  vm_compute in H. discriminate.
Qed.

(** ** removeNullValuesFromHash *)

Lemma keepEntry_lookup (options : nullOptions) (acc : props)
    (k : string) (v : value) (key : string) :
  lookup (KStr key)
    (keepEntry (match allowNull options with Some a => a | None => [] end)
       acc (k, v)) =
  if kept options k v && String.eqb key k then Some v
  else lookup (KStr key) acc.
Proof.
  unfold keepEntry, kept.
  assert (E : Str.includes
                (match allowNull options with Some a => a | None => [] end) k
              = match allowNull options with
                | Some a => Str.includes a k
                | None => false
                end) by now destruct (allowNull options).
  rewrite E.
  destruct (match allowNull options with
            | Some a => Str.includes a k
            | None => false
            end), (Str.endsWith k "Id"), (is_nullish v); simpl;
    rewrite ?lookup_assign; simpl; reflexivity.
Qed.

Lemma find_entry_absent (key : string) (es : list (string * value)) :
  ~ In key (map fst es) -> find_entry key es = None.
Proof.
  induction es as [|[k v] es IH]; simpl; intros H; [reflexivity|].
  destruct (String.eqb key k) eqn:E.
  - apply String.eqb_eq in E. subst. tauto.
  - apply IH. tauto.
Qed.

Lemma find_entry_app (key : string) (es es' : list (string * value)) :
  find_entry key (es ++ es') =
  match find_entry key es with
  | Some v => Some v
  | None => find_entry key es'
  end.
Proof.
  induction es as [|[k v] es IH]; simpl; [reflexivity|].
  now destruct (String.eqb key k).
Qed.

Lemma keepEntries_lookup (options : nullOptions)
    (es : list (string * value)) (key : string) :
  NoDup (map fst es) ->
  lookup (KStr key)
    (fold_left
       (keepEntry (match allowNull options with Some a => a | None => [] end))
       es []) =
  match find_entry key es with
  | Some v => if kept options key v then Some v else None
  | None => None
  end.
Proof.
  induction es as [|[k v] es IH] using rev_ind; intros Hnd; [reflexivity|].
  rewrite map_app in Hnd. simpl in Hnd.
  apply NoDup_remove in Hnd. rewrite app_nil_r in Hnd.
  destruct Hnd as [Hnd Hnotin].
  rewrite fold_left_app. cbn [fold_left].
  rewrite keepEntry_lookup, find_entry_app.
  cbn [find_entry]. destruct (String.eqb key k) eqn:E.
  - apply String.eqb_eq in E. subst k.
    rewrite (find_entry_absent _ _ Hnotin), andb_true_r.
    destruct (kept options key v); [reflexivity|].
    rewrite (IH Hnd), (find_entry_absent _ _ Hnotin). reflexivity.
  - rewrite andb_false_r, (IH Hnd).
    now destruct (find_entry key es).
Qed.

Lemma hash_entry_object (f : props) (key : string) :
  hash_entry (VObj f) key = lookup (KStr key) f.
Proof.
  unfold hash_entry. simpl.
  induction f as [|[[s|y] v] f IH]; simpl; [reflexivity | | exact IH].
  now destruct (String.eqb key s).
Qed.



(** ** flattenObjectDeep *)

Lemma fold_fields_entries {A : Type} (visit : string -> value -> A -> A)
    (f : props) (acc : A) :
  fold_fields visit f acc =
  fold_left (fun a kv => visit (fst kv) (snd kv) a) (string_entries f) acc.
Proof.
  revert acc. induction f as [|[[s|y] v] f IH]; intros acc; simpl;
    [reflexivity | apply IH | apply IH].
Qed.

Lemma fold_elems_entries {A : Type} (visit : string -> value -> A -> A)
    (i : nat) (l : list value) (acc : A) :
  fold_elems (fun j => visit (index_key j)) i l acc =
  fold_left (fun a kv => visit (fst kv) (snd kv) a) (indexed_from i l) acc.
Proof.
  revert i acc. induction l as [|v l IH]; intros i acc; simpl;
    [reflexivity | apply IH].
Qed.

Lemma flattenObject_entries (obj : value) (subPath : option string)
    (acc : props) :
  is_nonnull_object obj = true ->
  flattenObject obj subPath acc =
  fold_left (fun a kv => flattenVisit subPath (fst kv) (snd kv) a)
    (own_entries obj) acc.
Proof.
  destruct obj; simpl; try discriminate; intros _.
  - apply (fold_elems_entries (flattenVisit subPath)).
  - apply (fold_fields_entries (flattenVisit subPath)).
  - apply (fold_fields_entries (flattenVisit subPath)).
Qed.

Lemma flattenObject_leaf (obj : value) (subPath : option string)
    (acc : props) :
  is_nonnull_object obj = false -> flattenObject obj subPath acc = acc.
Proof. destruct obj; simpl; intros H; try discriminate; reflexivity. Qed.

Lemma Forall_string_entries (P : value -> Prop) (f : props) :
  Forall (fun kv => P (snd kv)) f ->
  Forall (fun kv => P (snd kv)) (string_entries f).
Proof.
  induction 1 as [|[[s|y] v] f Hv Hf IH]; simpl; auto.
Qed.

Lemma Forall_indexed_from (P : value -> Prop) (i : nat) (l : list value) :
  Forall P l -> Forall (fun kv => P (snd kv)) (indexed_from i l).
Proof.
  intros H. revert i. induction H as [|v l Hv Hl IH]; intros i; simpl; auto.
Qed.

Lemma Forall_own_entries (P : value -> Prop) (obj : value) :
  match obj with
  | VArr l => Forall P l
  | VObj f | VInst _ f => Forall (fun kv => P (snd kv)) f
  | _ => True
  end ->
  is_nonnull_object obj = true ->
  Forall (fun kv => P (snd kv)) (own_entries obj).
Proof.
  destruct obj; simpl; intros H E; try discriminate.
  - now apply Forall_indexed_from.
  - now apply Forall_string_entries.
  - now apply Forall_string_entries.
Qed.

Lemma flattenEntries_origin (obj : value) (subPath : option string)
    (k : key) (v : value) (es : list (string * value)) :
  is_nonnull_object obj = true ->
  (forall kv, In kv es -> In kv (own_entries obj)) ->
  Forall (fun kv =>
            forall sp acc, lookup k (flattenObject (snd kv) sp acc) = Some v ->
              lookup k acc = Some v \/ flat_origin (snd kv) sp k v) es ->
  forall acc,
    lookup k (fold_left (fun a kv => flattenVisit subPath (fst kv) (snd kv) a)
                es acc) = Some v ->
    lookup k acc = Some v \/ flat_origin obj subPath k v.
Proof.
  intros Hobj Hin Hall. induction Hall as [|[key w] es Hw Hes IH];
    intros acc; simpl; [auto|].
  intros H. apply IH in H; [|intros kv Hkv; apply Hin; now right].
  destruct H as [H|H]; [|now right].
  assert (Hedge : In (key, w) (own_entries obj)) by (apply Hin; now left).
  unfold flattenVisit in H. simpl in Hw.
  destruct (is_nonnull_object w) eqn:Ew.
  - apply Hw in H. destruct H as [H|[Hleaf (path & s & Hne & Hr & Hj & Hk)]];
      [now left|right].
    split; [exact Hleaf|]. exists (key :: path), s.
    repeat split; [discriminate | | exact Hj | exact Hk].
    now apply reaches_step with w.
  - rewrite lookup_assign in H.
    key_cases k (KStr (pathToProperty subPath key)); [|now left].
    injection H as <-. right. split; [exact Ew|].
    exists [key], (pathToProperty subPath key).
    repeat split; [discriminate | | exact E].
    apply reaches_step with w; [exact Hobj | exact Hedge | constructor].
Qed.

Lemma flattenObject_origin (obj : value) :
  forall sp acc k v,
    lookup k (flattenObject obj sp acc) = Some v ->
    lookup k acc = Some v \/ flat_origin obj sp k v.
Proof.
  induction obj as [ | | b | n | s | l IHl | f IHf | c f IHf | i n | i n r IHr ]
    using value_ind'; intros sp acc k v H;
    try (rewrite flattenObject_leaf in H by reflexivity; now left);
    rewrite flattenObject_entries in H by reflexivity;
    (eapply flattenEntries_origin in H; [exact H | reflexivity | auto |]).
  - apply (Forall_own_entries
             (fun w => forall sp acc,
                lookup k (flattenObject w sp acc) = Some v ->
                lookup k acc = Some v \/ flat_origin w sp k v) (VArr l));
      [|reflexivity].
    simpl. eapply Forall_impl; [|exact IHl]. auto.
  - apply (Forall_own_entries
             (fun w => forall sp acc,
                lookup k (flattenObject w sp acc) = Some v ->
                lookup k acc = Some v \/ flat_origin w sp k v) (VObj f));
      [|reflexivity].
    simpl. eapply Forall_impl; [|exact IHf]. auto.
  - apply (Forall_own_entries
             (fun w => forall sp acc,
                lookup k (flattenObject w sp acc) = Some v ->
                lookup k acc = Some v \/ flat_origin w sp k v) (VInst c f));
      [|reflexivity].
    simpl. eapply Forall_impl; [|exact IHf]. auto.
Qed.

Lemma append_assoc (a b c : string) : ((a ++ b) ++ c = a ++ (b ++ c))%string.
Proof. induction a as [|ch a IH]; simpl; [reflexivity | now rewrite IH]. Qed.

Lemma append_nonempty (a b : string) : a <> "" -> (a ++ b)%string <> "".
Proof. destruct a; simpl; [intros H; now contradiction H | discriminate]. Qed.

Lemma concat_absorb (p k : string) (path : list string) :
  String.concat "." ((p ++ "." ++ k)%string :: path) =
  (p ++ "." ++ String.concat "." (k :: path))%string.
Proof.
  destruct path as [|q path]; [reflexivity|].
  cbn [String.concat]. now rewrite !append_assoc.
Qed.

Lemma joinPath_dotted (path : list string) :
  forall p, p <> "" ->
    joinPath (Some p) path = Some (String.concat "." (p :: path)).
Proof.
  induction path as [|k path IH]; intros p Hp; [reflexivity|].
  unfold joinPath in *. cbn [fold_left]. unfold pathToProperty at 2.
  assert (E : truthy (VStr p) = true).
  { simpl. destruct (String.eqb p "") eqn:E; [|reflexivity].
    apply String.eqb_eq in E. contradiction. }
  rewrite E, IH by now apply append_nonempty.
  rewrite concat_absorb.
  destruct path; reflexivity.
Qed.

Lemma joinPath_root (path : list string) (s : string) :
  joinPath None path = Some s -> hd "" path <> "" ->
  s = String.concat "." path.
Proof.
  destruct path as [|k path]; [discriminate|]. simpl. intros H Hk.
  change (joinPath (Some k) path = Some s) in H.
  rewrite joinPath_dotted in H by assumption.
  injection H as <-. reflexivity.
Qed.

(** C7, as the code has it: flattening a plain object gives a plain
    object none of whose values is a non-null object; every key of the
    result is built from the path to a leaf of the input and carries that
    leaf.  The key is the path joined with dots, except that nothing is
    put in front of a key that follows an empty prefix: for a path whose
    first key is not the empty string it is the dot-joined path. *)
Theorem flattenObjectDeep_leaves (f : props) :
  exists r,
    flattenObjectDeep (VObj f) = VObj r
    /\ forall k v, lookup k r = Some v ->
         is_nonnull_object v = false
         /\ exists path s,
              reaches (VObj f) path v /\ joinPath None path = Some s
              /\ k = KStr s
              /\ (hd "" path <> "" -> s = String.concat "." path).
Proof.
  eexists. split; [reflexivity|]. intros k v H.
  apply flattenObject_origin in H. destruct H as [H|[Hleaf H]];
    [discriminate|].
  destruct H as (path & s & _ & Hr & Hj & Hk).
  split; [exact Hleaf|]. exists path, s.
  repeat split; try assumption. now apply joinPath_root.
Qed.

(** C7 fails as stated on an empty-string key: the leaf at path
    ["", "a"] is filed under [a], not under [.a]. *)
Lemma flattenObjectDeep_empty_key :
  flattenObjectDeep (VObj [(KStr "", VObj [(KStr "a", VNum 1)])])
  = VObj [(KStr "a", VNum 1)]
  /\ ~ dot_joined_leaves
         (VObj [(KStr "", VObj [(KStr "a", VNum 1)])])
         [(KStr "a", VNum 1)].
Proof.
  split; [reflexivity|]. intros H.
  destruct (H (KStr "a") (VNum 1) eq_refl) as [_ (path & Hr & Hk)].
  inversion Hr as [|v w u key path' _ Hin Hr']; subst.
  simpl in Hin. destruct Hin as [Hin|[]]. injection Hin as <- <-.
  destruct path' as [|q path']; simpl in Hk; discriminate.
Qed.

(** ** Falsy and non-plain inputs *)



(** ** Enough fuel gives a result *)

Lemma props_ok_assign (d : nat) (k : key) (v : value) (f : props) :
  entry_ok d (k, v) -> props_ok d f -> props_ok d (assign k v f).
Proof.
  intros Hkv Hf. induction Hf as [|[k0 v0] f H0 Hf IH]; simpl.
  - repeat constructor; apply Hkv.
  - key_cases k k0.
    + subst. constructor; [exact Hkv | exact Hf].
    + constructor; [exact H0 | exact IH].
Qed.

Lemma props_ok_remove (d : nat) (k : key) (f : props) :
  props_ok d f -> props_ok d (remove k f).
Proof.
  intros Hf. induction Hf as [|[k0 v0] f H0 Hf IH]; simpl.
  - constructor.
  - destruct (key_eqb k k0); [exact IH | now constructor].
Qed.

Lemma lookup_In (k : key) (v : value) (f : props) :
  lookup k f = Some v -> exists k', k' = k /\ In (k', v) f.
Proof.
  induction f as [|[k0 v0] f IH]; simpl; [discriminate|].
  key_cases k k0.
  - intros H. injection H as <-. exists k0. split; [congruence | now left].
  - intros H. destruct (IH H) as (k' & Hk & Hin). exists k'. auto.
Qed.

Lemma props_ok_read (d : nat) (k : key) (f : props) :
  props_ok d f ->
  no_length_key (read k f) = true /\ depth (read k f) <= d.
Proof.
  intros Hf. unfold read. destruct (lookup k f) as [v|] eqn:E.
  - destruct (lookup_In _ _ _ E) as (k' & _ & Hin).
    unfold props_ok in Hf. rewrite Forall_forall in Hf.
    apply Hf in Hin. destruct Hin as (_ & H1 & H2). auto.
  - simpl. split; [reflexivity | lia].
Qed.

Lemma props_ok_length (d : nat) (f : props) :
  props_ok d f -> read (KStr "length") f = VUndefined.
Proof.
  intros Hf. unfold read.
  destruct (lookup (KStr "length") f) as [v|] eqn:E; [|reflexivity].
  destruct (lookup_In _ _ _ E) as (k' & Hk & Hin).
  unfold props_ok in Hf. rewrite Forall_forall in Hf.
  apply Hf in Hin. destruct Hin as (H0 & _). simpl in H0. subst k'.
  discriminate.
Qed.

Section CloneKeepsFragment.
Variable g : value -> value.

Lemma clone_ok_elems (l : list value) :
  Forall (clone_ok g) l -> forallb no_length_key l = true ->
  forallb no_length_key (map g l) = true
  /\ list_max (map depth (map g l)) <= list_max (map depth l).
Proof.
  induction 1 as [|x l Hx Hl IH]; simpl; intros H; [split; [reflexivity|lia]|].
  apply andb_true_iff in H. destruct H as [H1 H2].
  destruct (Hx H1) as [Hx1 Hx2]. destruct (IH H2) as [IH1 IH2].
  rewrite Hx1, IH1. split; [reflexivity | lia].
Qed.

Lemma clone_ok_fields (keyed : bool) (f : props) :
  Forall (fun kv => clone_ok g (snd kv)) f ->
  forallb (fun kv => (if keyed then negb (is_length (fst kv)) else true)
                     && no_length_key (snd kv)) f = true ->
  forallb (fun kv => (if keyed then negb (is_length (fst kv)) else true)
                     && no_length_key (snd kv))
    (map (fun kv => (fst kv, g (snd kv))) f) = true
  /\ list_max (map (fun kv => depth (snd kv))
                 (map (fun kv => (fst kv, g (snd kv))) f))
     <= list_max (map (fun kv => depth (snd kv)) f).
Proof.
  induction 1 as [|[k x] f Hx Hf IH]; simpl; intros H;
    [split; [reflexivity|lia]|].
  apply andb_true_iff in H. destruct H as [H1 H2].
  apply andb_true_iff in H1. destruct H1 as [H0 H1].
  destruct (Hx H1) as [Hx1 Hx2]. destruct (IH H2) as [IH1 IH2].
  simpl in *. rewrite H0, Hx1, IH1. split; [reflexivity | lia].
Qed.
End CloneKeepsFragment.

Lemma baseClone_ok (onlyPlain : bool) (v : value) :
  clone_ok (LodashClone.baseClone (cloneCustomizer onlyPlain) true) v.
Proof.
  induction v as [ | | b | n | s | l IHl | f IHf | c f IHf | i n | i n r IHr ]
    using value_ind'; unfold clone_ok; intros Hv;
    try (destruct onlyPlain; simpl; (split; [reflexivity | lia])).
  - cbn [LodashClone.baseClone cloneCustomizer isArray orb].
    simpl in Hv. destruct (clone_ok_elems _ l IHl Hv) as [H1 H2].
    simpl. rewrite H1. split; [reflexivity | lia].
  - cbn [LodashClone.baseClone cloneCustomizer isArray Lodash.isPlainObject orb].
    simpl in Hv.
    destruct (clone_ok_fields _ true f IHf Hv) as [H1 H2].
    simpl. simpl in H1. rewrite H1. split; [reflexivity | lia].
  - destruct onlyPlain; simpl; (split; [exact Hv | lia]).
  - simpl in Hv. destruct onlyPlain; simpl.
    + split; [exact Hv | lia].
    + unfold cloneCustomizer. simpl. unfold LodashClone.defined.
      destruct (is_undefined r) eqn:E; simpl; (split; [exact Hv | lia]).
Qed.

Section EnoughFuel.
Variable M : Model.
Hypothesis Hmodel : no_length_field M.

Lemma field_not_length (k : key) (raw : rawAttribute) :
  rawAttributes M k = Some raw -> is_length (opt_key (field raw)) = false.
Proof.
  intros H. apply Hmodel in H. unfold is_length.
  destruct (field raw) as [s|]; simpl; [|reflexivity].
  destruct (String.eqb s "length") eqn:E; [|reflexivity].
  apply String.eqb_eq in E. congruence.
Qed.

Lemma renameField_ok (d : nat) (k : key) (attrs : props) :
  props_ok d attrs -> props_ok d (renameField M k attrs).
Proof.
  intros H. unfold renameField.
  destruct (rawAttributes M k) as [raw|] eqn:E; [|exact H].
  destruct (negb (opt_eqb (field raw) (fieldName raw))); [|exact H].
  apply props_ok_remove, props_ok_assign; [|exact H].
  destruct (props_ok_read d k attrs H) as [H1 H2].
  split; [|split]; simpl; [now apply field_not_length with k | exact H1 | exact H2].
Qed.

Lemma mapNested_ok (d : nat) (mapWhere : value -> option value) (k : key)
    (attrs : props) :
  rec_ok d mapWhere -> props_ok d attrs ->
  exists attrs', mapNested mapWhere M k attrs = Some attrs'
                 /\ props_ok d attrs'.
Proof.
  intros Hrec H. unfold mapNested.
  destruct (Lodash.isPlainObject (read k attrs) && negb (skipsNested M k))
    eqn:E; [|now exists attrs].
  apply andb_true_iff in E. destruct E as [Eplain _].
  destruct (props_ok_read d k attrs H) as [H1 H2].
  destruct (Hrec _ Eplain H1 H2) as (w & Hw & Hplain & Htame & Hdepth).
  assert (Hk : is_length k = false).
  { unfold is_length. key_cases k (KStr "length"); [|reflexivity].
    subst k. rewrite (props_ok_length d attrs H) in Eplain. discriminate. }
  unfold mapOptionFieldNames_with.
  cbn [read lookup key_eqb String.eqb Ascii.eqb Bool.eqb].
  destruct (read k attrs) as [ | | | | | | g | | ] eqn:Ev; try discriminate.
  cbn [truthy Lodash.isPlainObject andb]. rewrite Hw.
  cbn [assign key_eqb String.eqb Ascii.eqb Bool.eqb read lookup].
  eexists. split; [reflexivity|].
  apply props_ok_assign; [|exact H].
  split; [|split]; simpl; [exact Hk | exact Htame | lia].
Qed.

Lemma mapElements_ok (d : nat) (mapWhere : value -> option value) (k : key)
    (attrs : props) :
  props_ok d attrs -> mapElements mapWhere k attrs = Some attrs.
Proof.
  intros H. unfold mapElements. rewrite (props_ok_length d attrs H).
  now destruct (isArray (read k attrs)).
Qed.

Lemma mapKeys_ok (d : nat) (mapWhere : value -> option value)
    (keys : list key) :
  rec_ok d mapWhere ->
  forall attrs, props_ok d attrs ->
    exists attrs', fold_left (mapKey mapWhere M) keys (Some attrs) = Some attrs'
                   /\ props_ok d attrs'.
Proof.
  intros Hrec. induction keys as [|k keys IH]; intros attrs H; simpl.
  - now exists attrs.
  - destruct (mapNested_ok d mapWhere k _ Hrec (renameField_ok d k attrs H))
      as (attrs2 & E2 & H2).
    rewrite E2, (mapElements_ok d mapWhere k attrs2 H2). now apply IH.
Qed.
End EnoughFuel.

Lemma props_ok_object (d : nat) (f : props) :
  props_ok d f -> no_length_key (VObj f) = true /\ depth (VObj f) <= S d.
Proof.
  intros H. simpl.
  induction H as [|[k v] f (H0 & H1 & H2) Hf [IH1 IH2]]; simpl.
  - split; [reflexivity | lia].
  - simpl in *. rewrite H0, H1, IH1. split; [reflexivity | lia].
Qed.

Lemma cloned_props_ok (onlyPlain : bool) (f : props) :
  no_length_key (VObj f) = true ->
  props_ok (list_max (map (fun kv => depth (snd kv)) f))
    (map (fun kv =>
            (fst kv,
             LodashClone.baseClone (cloneCustomizer onlyPlain) true (snd kv)))
       f).
Proof.
  simpl. induction f as [|[k v] f IH]; simpl; intros H; [constructor|].
  apply andb_true_iff in H. destruct H as [H Hf].
  apply andb_true_iff in H. destruct H as [Hk Hv].
  destruct (baseClone_ok onlyPlain v Hv) as [H1 H2].
  constructor.
  - split; [|split]; simpl; [now destruct (is_length k) | exact H1 | lia].
  - eapply Forall_impl; [|exact (IH Hf)].
    intros kv (A & B & C). split; [|split]; [exact A | exact B | lia].
Qed.

Lemma rec_ok_le (d d' : nat) (mapWhere : value -> option value) :
  d <= d' -> rec_ok d' mapWhere -> rec_ok d mapWhere.
Proof. intros Hle H w Hp Ht Hd. apply H; [exact Hp | exact Ht | lia]. Qed.

(** On where-objects without a [length] property, a fuel at least the
    depth of the object gives a result, itself a plain object in the same
    fragment and no deeper. *)
Lemma mapWhereFieldNames_enough_fuel (operatorsSet : symbol -> bool)
    (M : Model) :
  no_length_field M ->
  forall fuel, rec_ok fuel (fun w => mapWhereFieldNames operatorsSet fuel w M).
Proof.
  intros Hmodel. induction fuel as [|fuel IH]; intros w Hp Ht Hd;
    destruct w as [ | | | | | | f | | ]; try discriminate.
  - simpl in Hd. lia.
  - cbn [mapWhereFieldNames truthy negb].
    unfold cloneDeep. cbn [truthy].
    unfold LodashClone.cloneDeepWith.
    cbn [LodashClone.baseClone cloneCustomizer isArray Lodash.isPlainObject orb].
    pose proof (cloned_props_ok false f Ht) as Hok.
    set (d := list_max (map (fun kv => depth (snd kv)) f)) in *.
    assert (Hdd : d <= fuel) by (simpl in Hd; fold d in Hd; lia).
    destruct (mapKeys_ok M Hmodel d _
                (getComplexKeys operatorsSet
                   (VObj (map (fun kv =>
                      (fst kv,
                       LodashClone.baseClone (cloneCustomizer false) true
                         (snd kv))) f)))
                (rec_ok_le d fuel _ Hdd IH) _ Hok) as (attrs' & E & Hok').
    destruct (props_ok_object d attrs' Hok') as [H1 H2].
    exists (VObj attrs').
    split; [exact (f_equal (option_map VObj) E)|].
    split; [reflexivity|]. split; [exact H1|].
    simpl in *. fold d. lia.
Qed.

(** ** mapOptionFieldNames: the attribute list *)

Lemma opt_eqb_eq (a b : option string) : opt_eqb a b = true <-> a = b.
Proof.
  destruct a as [s|], b as [t|]; simpl; split; intros H;
    try discriminate; try reflexivity.
  - apply String.eqb_eq in H. now subst.
  - injection H as ->. apply String.eqb_refl.
Qed.

Lemma mapAttribute_aliased (M : Model) (attr : value) :
  aliased_entry M attr (mapAttribute M attr).
Proof.
  unfold aliased_entry. split; [|split; [|split]].
  - intros a raw -> Hraw Hne. unfold mapAttribute. rewrite Hraw.
    destruct (opt_eqb (Some a) (field raw)) eqn:E; [|reflexivity].
    apply opt_eqb_eq in E. congruence.
  - intros H. destruct attr; try reflexivity. now contradiction (H s).
  - intros a -> Hraw. unfold mapAttribute. now rewrite Hraw.
  - intros a raw -> Hraw Hf. unfold mapAttribute. rewrite Hraw.
    assert (E : opt_eqb (Some a) (field raw) = true)
      by (apply opt_eqb_eq; congruence).
    now rewrite E.
Qed.

Lemma mapOptionFieldNames_with_attributes (mapWhere : value -> option value)
    (M : Model) (options r : props) (l : list value) :
  read (KStr "attributes") options = VArr l ->
  mapOptionFieldNames_with mapWhere options M = Some r ->
  read (KStr "attributes") r = VArr (map (mapAttribute M) l).
Proof.
  intros Hl. unfold mapOptionFieldNames_with. rewrite Hl.
  set (options1 := assign (KStr "attributes") _ options).
  assert (H1 : read (KStr "attributes") options1
               = VArr (map (mapAttribute M) l)).
  { unfold options1. rewrite read_assign. reflexivity. }
  destruct (truthy (read (KStr "where") options1)
            && Lodash.isPlainObject (read (KStr "where") options1)).
  - destruct (mapWhere (read (KStr "where") options1)) as [w|];
      [|discriminate].
    intros H. injection H as <-. rewrite read_assign. exact H1.
  - intros H. injection H as <-. exact H1.
Qed.

Lemma mapOptionFieldNames_returns (operatorsSet : symbol -> bool) (M : Model)
    (options : props) (fuel : nat) :
  no_length_field M ->
  no_length_key (read (KStr "where") options) = true ->
  depth (read (KStr "where") options) <= fuel ->
  exists r, mapOptionFieldNames operatorsSet fuel options M = Some r.
Proof.
  intros Hmodel Ht Hd. unfold mapOptionFieldNames, mapOptionFieldNames_with.
  set (options1 := match read (KStr "attributes") options with
                   | VArr l => _
                   | _ => options
                   end).
  assert (E : read (KStr "where") options1 = read (KStr "where") options).
  { unfold options1. destruct (read (KStr "attributes") options);
      try reflexivity. now rewrite read_assign. }
  rewrite E.
  destruct (truthy (read (KStr "where") options)
            && Lodash.isPlainObject (read (KStr "where") options)) eqn:Ew;
    [|eauto].
  apply andb_true_iff in Ew. destruct Ew as [_ Hp].
  destruct (mapWhereFieldNames_enough_fuel operatorsSet M Hmodel fuel _
              Hp Ht Hd) as (w & Hw & _).
  rewrite Hw. eauto.
Qed.


Lemma exampleModel_no_length_field : no_length_field exampleModel.
Proof.
  intros k raw H. unfold exampleModel in H. simpl in H.
  destruct k as [s|y]; [|discriminate].
  destruct (String.eqb s "firstName") eqn:E1.
  - apply String.eqb_eq in E1. subst. injection H as <-. discriminate.
  - destruct (String.eqb s "meta") eqn:E2.
    + apply String.eqb_eq in E2. subst. injection H as <-. discriminate.
    + exfalso. apply String.eqb_neq in E1, E2.
      repeat match type of H with
             | match ?x with _ => _ end = _ =>
                 destruct x; try discriminate; try congruence
             end.
Qed.


(** ** mapWhereFieldNames: which nested objects are rewritten *)

Lemma lookup_renameField_other (M : Model) (k s : key) (attrs : props) :
  s <> k -> (renamed M k = true -> physical M k <> s) ->
  lookup s (renameField M k attrs) = lookup s attrs.
Proof.
  intros Hsk Hphys. unfold renameField, renamed, physical in *.
  destruct (rawAttributes M k) as [raw|]; [|reflexivity].
  destruct (negb (opt_eqb (field raw) (fieldName raw))); [|reflexivity].
  rewrite lookup_remove, lookup_assign.
  key_cases s k; [contradiction|].
  key_cases s (opt_key (field raw)); [|reflexivity].
  subst s. now contradiction (Hphys eq_refl).
Qed.

Lemma lookup_mapNested_other (mapWhere : value -> option value) (M : Model)
    (k s : key) (attrs attrs' : props) :
  s <> k -> mapNested mapWhere M k attrs = Some attrs' ->
  lookup s attrs' = lookup s attrs.
Proof.
  intros Hsk. unfold mapNested.
  destruct (Lodash.isPlainObject (read k attrs) && negb (skipsNested M k)).
  - destruct (mapOptionFieldNames_with mapWhere _ M) as [o|]; [|discriminate].
    intros H. injection H as <-. rewrite lookup_assign.
    key_cases s k; [contradiction | reflexivity].
  - intros H. now injection H as <-.
Qed.

Lemma lookup_mapElement_other (mapWhere : value -> option value)
    (k s : key) (i : nat) (attrs attrs' : props) :
  s <> k -> mapElement mapWhere k (Some attrs) i = Some attrs' ->
  lookup s attrs' = lookup s attrs.
Proof.
  intros Hsk. unfold mapElement.
  destruct (Lodash.isPlainObject (read (KStr (index_key i)) attrs)).
  - destruct (mapWhere _) as [w|]; [|discriminate].
    destruct (read k attrs); try discriminate.
    intros H. injection H as <-. rewrite lookup_assign.
    key_cases s k; [contradiction | reflexivity].
  - intros H. now injection H as <-.
Qed.

Lemma mapElement_none (mapWhere : value -> option value) (k : key)
    (idx : list nat) :
  fold_left (mapElement mapWhere k) idx None = None.
Proof. induction idx as [|i idx IH]; simpl; [reflexivity | exact IH]. Qed.

Lemma lookup_mapElements_other (mapWhere : value -> option value)
    (k s : key) (attrs attrs' : props) :
  s <> k -> mapElements mapWhere k attrs = Some attrs' ->
  lookup s attrs' = lookup s attrs.
Proof.
  intros Hsk. unfold mapElements.
  destruct (isArray (read k attrs)); [|intros H; now injection H as <-].
  destruct (loop_bound _) as [n|]; [|discriminate].
  generalize (seq 0 n). intros idx. revert attrs.
  induction idx as [|i idx IH]; intros attrs; cbn [fold_left].
  - intros H. now injection H as <-.
  - destruct (mapElement mapWhere k (Some attrs) i) as [attrs1|] eqn:E.
    + intros H. rewrite (IH _ H).
      now apply lookup_mapElement_other with mapWhere k i.
    + rewrite mapElement_none. discriminate.
Qed.

Lemma mapKey_none (mapWhere : value -> option value) (M : Model)
    (keys : list key) :
  fold_left (mapKey mapWhere M) keys None = None.
Proof. induction keys as [|k keys IH]; simpl; [reflexivity | exact IH]. Qed.

Lemma lookup_mapKey_other (mapWhere : value -> option value) (M : Model)
    (k s : key) (attrs attrs' : props) :
  s <> k -> (renamed M k = true -> physical M k <> s) ->
  mapKey mapWhere M (Some attrs) k = Some attrs' ->
  lookup s attrs' = lookup s attrs.
Proof.
  intros Hsk Hphys. unfold mapKey.
  destruct (mapNested mapWhere M k (renameField M k attrs)) as [attrs2|] eqn:E2;
    [|discriminate].
  intros E3.
  rewrite (lookup_mapElements_other _ _ _ _ _ Hsk E3).
  rewrite (lookup_mapNested_other _ _ _ _ _ _ Hsk E2).
  now apply lookup_renameField_other.
Qed.

Lemma lookup_mapKeys_other (mapWhere : value -> option value) (M : Model)
    (s : key) (keys : list key) :
  (forall k, In k keys ->
     s <> k /\ (renamed M k = true -> physical M k <> s)) ->
  forall attrs attrs',
    fold_left (mapKey mapWhere M) keys (Some attrs) = Some attrs' ->
    lookup s attrs' = lookup s attrs.
Proof.
  induction keys as [|k keys IH]; intros Hkeys attrs attrs'; cbn [fold_left].
  - intros H. now injection H as <-.
  - destruct (mapKey mapWhere M (Some attrs) k) as [attrs1|] eqn:E.
    + intros H. rewrite (IH (fun k' Hk' => Hkeys k' (or_intror Hk')) _ _ H).
      destruct (Hkeys k (or_introl eq_refl)) as [H1 H2].
      exact (lookup_mapKey_other mapWhere M k s attrs attrs1 H1 H2 E).
    + rewrite mapKey_none. discriminate.
Qed.

(** The step for a key whose value is a plain object: the value is either
    moved or kept as it is, or replaced by the result of the recursive
    call, which happens only when the key is neither renamed nor of an
    HSTORE or JSON attribute. *)
Lemma mapKey_plain (mapWhere : value -> option value) (M : Model)
    (k : key) (g : props) (attrs attrs' : props) :
  (forall x w, Lodash.isPlainObject x = true -> mapWhere x = Some w ->
     isArray w = false) ->
  lookup k attrs = Some (VObj g) ->
  (renamed M k = true -> physical M k <> k) ->
  mapKey mapWhere M (Some attrs) k = Some attrs' ->
  if renamed M k || skipsNested M k
  then lookup (slot M k) attrs' = Some (VObj g)
  else exists w, mapWhere (VObj g) = Some w /\ lookup k attrs' = Some w.
Proof.
  intros Hplain Hk Hself. unfold mapKey, slot.
  destruct (renamed M k) eqn:Er; cbn [orb].
  - (* moved: nothing is left under [k] *)
    assert (Hgone : read k (renameField M k attrs) = VUndefined
                    /\ lookup (physical M k) (renameField M k attrs)
                       = Some (VObj g)).
    { unfold renameField, renamed, physical, read in *.
      destruct (rawAttributes M k) as [raw|]; [|discriminate].
      rewrite Er. rewrite !lookup_remove, !lookup_assign, !key_eqb_refl.
      specialize (Hself eq_refl).
      key_cases (opt_key (field raw)) k; [contradiction|].
      rewrite Hk. split; reflexivity. }
    destruct Hgone as [Hgone Hmoved].
    unfold mapNested, mapElements. rewrite Hgone.
    cbn [Lodash.isPlainObject andb].
    rewrite Hgone. cbn [isArray]. intros H. now injection H as <-.
  - assert (Hsame : renameField M k attrs = attrs).
    { unfold renameField, renamed in *.
      destruct (rawAttributes M k) as [raw|]; [|reflexivity].
      now rewrite Er. }
    rewrite Hsame. unfold mapNested, read. rewrite Hk.
    cbn [Lodash.isPlainObject andb].
    destruct (skipsNested M k); cbn [negb].
    + unfold mapElements, read. rewrite Hk. cbn [isArray].
      intros H. now injection H as <-.
    + unfold mapOptionFieldNames_with.
      cbn [read lookup key_eqb String.eqb Ascii.eqb Bool.eqb truthy
             Lodash.isPlainObject andb].
      destruct (mapWhere (VObj g)) as [w|] eqn:Ew; [|discriminate].
      cbn [assign key_eqb String.eqb Ascii.eqb Bool.eqb read lookup].
      intros H. exists w. split; [reflexivity|].
      unfold mapElements in H.
      rewrite read_assign, key_eqb_refl in H.
      rewrite (Hplain (VObj g) w eq_refl Ew) in H.
      injection H as <-. now rewrite lookup_assign, key_eqb_refl.
Qed.

Lemma lookup_map_values (h : value -> value) (k : key) (f : props) :
  lookup k (map (fun kv => (fst kv, h (snd kv))) f) =
  option_map h (lookup k f).
Proof.
  induction f as [|[k0 v0] f IH]; simpl; [reflexivity|].
  now destruct (key_eqb k k0).
Qed.

Lemma getComplexKeys_map_values (operatorsSet : symbol -> bool)
    (h : value -> value) (f : props) :
  getComplexKeys operatorsSet (VObj (map (fun kv => (fst kv, h (snd kv))) f))
  = getComplexKeys operatorsSet (VObj f).
Proof.
  unfold getComplexKeys, getOperators. simpl. f_equal.
  - f_equal. f_equal.
    induction f as [|[[s|y] v] f IH]; simpl; congruence.
  - induction f as [|[[s|y] v] f IH]; simpl; congruence.
Qed.

Lemma mapWhereFieldNames_object (operatorsSet : symbol -> bool) (M : Model)
    (fuel : nat) (f : props) :
  mapWhereFieldNames operatorsSet (S fuel) (VObj f) M =
  option_map VObj
    (fold_left
       (mapKey (fun w => mapWhereFieldNames operatorsSet fuel w M) M)
       (getComplexKeys operatorsSet (VObj f))
       (Some (map (fun kv => (fst kv, cloned (snd kv))) f))).
Proof.
  cbn [mapWhereFieldNames truthy negb]. unfold cloneDeep. cbn [truthy].
  unfold LodashClone.cloneDeepWith.
  cbn [LodashClone.baseClone cloneCustomizer isArray Lodash.isPlainObject orb].
  now rewrite (getComplexKeys_map_values operatorsSet
                 (LodashClone.baseClone (cloneCustomizer false) true) f).
Qed.

Lemma mapWhereFieldNames_plain_result (operatorsSet : symbol -> bool)
    (M : Model) (fuel : nat) (x w : value) :
  Lodash.isPlainObject x = true ->
  mapWhereFieldNames operatorsSet fuel x M = Some w ->
  isArray w = false.
Proof.
  destruct x as [ | | | | | | f | | ]; try discriminate. intros _.
  destruct fuel as [|fuel]; [discriminate|].
  rewrite mapWhereFieldNames_object.
  destruct (fold_left _ _ _) as [fr|]; [|discriminate].
  intros H. now injection H as <-.
Qed.

Lemma cloned_object (g : props) :
  cloned (VObj g) = VObj (map (fun kv => (fst kv, cloned (snd kv))) g).
Proof. reflexivity. Qed.

(** The value found in the result for a key [k] of the where-object whose
    value is a plain object [g]. *)
Lemma mapWhereFieldNames_key (operatorsSet : symbol -> bool) (M : Model)
    (f g : props) (k : key) (fuel : nat) (r : value) :
  NoDup (getComplexKeys operatorsSet (VObj f)) ->
  In k (getComplexKeys operatorsSet (VObj f)) ->
  lookup k f = Some (VObj g) ->
  undisturbed M (getComplexKeys operatorsSet (VObj f)) k ->
  mapWhereFieldNames operatorsSet (S fuel) (VObj f) M = Some r ->
  exists fr,
    r = VObj fr
    /\ if renamed M k || skipsNested M k
       then lookup (slot M k) fr = Some (cloned (VObj g))
       else exists w,
              mapWhereFieldNames operatorsSet fuel (cloned (VObj g)) M = Some w
              /\ lookup k fr = Some w.
Proof.
  intros Hnd Hin Hk [Hothers Hfresh]. rewrite mapWhereFieldNames_object.
  set (mw := fun w => mapWhereFieldNames operatorsSet fuel w M).
  set (f1 := map (fun kv => (fst kv, cloned (snd kv))) f).
  destruct (in_split _ _ Hin) as (pre & post & Hkeys).
  rewrite Hkeys in *. clear Hin.
  apply NoDup_remove in Hnd. destruct Hnd as [_ Hnotin].
  assert (Hpre : ~ In k pre) by (intros X; apply Hnotin, in_or_app; now left).
  assert (Hpost : ~ In k post) by (intros X; apply Hnotin, in_or_app; now right).
  rewrite fold_left_app. cbn [fold_left].
  destruct (fold_left (mapKey mw M) pre (Some f1)) as [a1|] eqn:E1;
    [|cbn [mapKey]; rewrite mapKey_none; discriminate].
  destruct (mapKey mw M (Some a1) k) as [a2|] eqn:E2;
    [|rewrite mapKey_none; discriminate].
  destruct (fold_left (mapKey mw M) post (Some a2)) as [fr|] eqn:E3;
    [|discriminate].
  intros H. injection H as <-. exists fr. split; [reflexivity|].
  assert (Hk1 : lookup k a1 = Some (cloned (VObj g))).
  { rewrite (lookup_mapKeys_other mw M k pre) with (attrs := f1) (attrs' := a1);
      [|intros k' Hk'|exact E1].
    - unfold f1. now rewrite lookup_map_values, Hk.
    - assert (Hne : k' <> k) by (intros ->; contradiction).
      split; [congruence|]. intros Hr.
      apply (Hothers k'); [apply in_or_app; now left | exact Hne | exact Hr]. }
  rewrite cloned_object in Hk1.
  assert (Hself : renamed M k = true -> physical M k <> k).
  { intros Hr Heq. apply (Hfresh Hr). rewrite Heq.
    apply in_or_app. right. now left. }
  pose proof (mapKey_plain mw M k _ a1 a2
                (mapWhereFieldNames_plain_result operatorsSet M fuel)
                Hk1 Hself E2) as Hstep.
  assert (Hrest : forall s, (s = slot M k) ->
            lookup s fr = lookup s a2).
  { intros s ->.
    apply (lookup_mapKeys_other mw M (slot M k) post); [|exact E3].
    intros k' Hk'.
    assert (Hne : k' <> k) by (intros ->; contradiction).
    split.
    - unfold slot. destruct (renamed M k) eqn:Er; [|congruence].
      intros Heq. apply (Hfresh eq_refl). rewrite Heq.
      apply in_or_app. right. now right.
    - intros Hr.
      apply (Hothers k'); [apply in_or_app; right; now right | exact Hne | exact Hr]. }
  rewrite cloned_object.
  destruct (renamed M k || skipsNested M k) eqn:Ecase.
  - now rewrite (Hrest _ eq_refl).
  - destruct Hstep as (w & Hw & Hlk). exists w. split; [exact Hw|].
    apply orb_false_iff in Ecase. destruct Ecase as [Er _].
    rewrite <- Hlk. apply Hrest. unfold slot. now rewrite Er.
Qed.

Lemma map_fixed {A : Type} (h : A -> A) (l : list A) :
  Forall (fun x => h x = x) l -> map h l = l.
Proof. induction 1 as [|x l Hx Hl IH]; simpl; congruence. Qed.

Lemma baseClone_fixed (onlyPlain : bool) (v : value) :
  no_clone_method v = true ->
  LodashClone.baseClone (cloneCustomizer onlyPlain) true v = v.
Proof.
  induction v as [ | | b | n | s | l IHl | f IHf | c f IHf | i n | i n r IHr ]
    using value_ind'; intros Hv;
    try (destruct onlyPlain; reflexivity); try discriminate.
  - cbn [LodashClone.baseClone cloneCustomizer isArray orb]. f_equal.
    apply map_fixed. simpl in Hv. rewrite forallb_forall in Hv.
    rewrite Forall_forall in *. intros x Hx. apply IHl; auto.
  - cbn [LodashClone.baseClone cloneCustomizer isArray Lodash.isPlainObject orb].
    f_equal. apply map_fixed. simpl in Hv. rewrite forallb_forall in Hv.
    rewrite Forall_forall in *. intros [k x] Hx. simpl.
    f_equal. apply (IHf _ Hx). exact (Hv _ Hx).
Qed.

Lemma cloned_fixed (v : value) : no_clone_method v = true -> cloned v = v.
Proof. apply baseClone_fixed. Qed.




(** ** The answer does not depend on the fuel *)

Section FuelIrrelevant.
Variable M : Model.
Variables mw1 mw2 : value -> option value.
Hypothesis Hmw : forall w r, mw1 w = Some r -> mw2 w = Some r.

Lemma mapOptionFieldNames_with_mono (options r : props) :
  mapOptionFieldNames_with mw1 options M = Some r ->
  mapOptionFieldNames_with mw2 options M = Some r.
Proof.
  unfold mapOptionFieldNames_with.
  destruct (truthy _ && Lodash.isPlainObject _); [|auto].
  destruct (mw1 _) as [w|] eqn:E; [|discriminate].
  now rewrite (Hmw _ _ E).
Qed.

Lemma mapNested_mono (k : key) (attrs r : props) :
  mapNested mw1 M k attrs = Some r -> mapNested mw2 M k attrs = Some r.
Proof.
  unfold mapNested.
  destruct (Lodash.isPlainObject _ && negb _); [|auto].
  destruct (mapOptionFieldNames_with mw1 _ M) as [o|] eqn:E; [|discriminate].
  now rewrite (mapOptionFieldNames_with_mono _ _ E).
Qed.

Lemma mapElement_mono (k : key) (attrs r : props) (i : nat) :
  mapElement mw1 k (Some attrs) i = Some r ->
  mapElement mw2 k (Some attrs) i = Some r.
Proof.
  unfold mapElement.
  destruct (Lodash.isPlainObject _); [|auto].
  destruct (mw1 _) as [w|] eqn:E; [|discriminate].
  now rewrite (Hmw _ _ E).
Qed.

Lemma mapElements_mono (k : key) (attrs r : props) :
  mapElements mw1 k attrs = Some r -> mapElements mw2 k attrs = Some r.
Proof.
  unfold mapElements.
  destruct (isArray _); [|auto].
  destruct (loop_bound _) as [n|]; [|discriminate].
  generalize (seq 0 n). intros idx. revert attrs.
  induction idx as [|i idx IH]; intros attrs; cbn [fold_left]; [auto|].
  destruct (mapElement mw1 k (Some attrs) i) as [a1|] eqn:E.
  - rewrite (mapElement_mono _ _ _ _ E). apply IH.
  - rewrite mapElement_none. discriminate.
Qed.

Lemma mapKeys_mono (keys : list key) :
  forall attrs r,
    fold_left (mapKey mw1 M) keys (Some attrs) = Some r ->
    fold_left (mapKey mw2 M) keys (Some attrs) = Some r.
Proof.
  induction keys as [|k keys IH]; intros attrs r; cbn [fold_left]; [auto|].
  destruct (mapKey mw1 M (Some attrs) k) as [a1|] eqn:E.
  - assert (E' : mapKey mw2 M (Some attrs) k = Some a1).
    { unfold mapKey in *.
      destruct (mapNested mw1 M k _) as [a2|] eqn:E2; [|discriminate].
      rewrite (mapNested_mono _ _ _ E2). now apply mapElements_mono. }
    rewrite E'. apply IH.
  - rewrite mapKey_none. discriminate.
Qed.
End FuelIrrelevant.

Lemma mapWhereFieldNames_more_fuel (operatorsSet : symbol -> bool)
    (M : Model) (fuel : nat) :
  forall fuel' v r, fuel <= fuel' ->
    mapWhereFieldNames operatorsSet fuel v M = Some r ->
    mapWhereFieldNames operatorsSet fuel' v M = Some r.
Proof.
  induction fuel as [|fuel IH]; intros fuel' v r Hle; [discriminate|].
  destruct fuel' as [|fuel']; [lia|].
  cbn [mapWhereFieldNames].
  destruct (negb (truthy v)); [auto|].
  destruct (cloneDeep v false); auto.
  destruct (fold_left _ _ _) as [fr|] eqn:E; [|discriminate].
  intros H.
  pose proof (mapKeys_mono M _ _
                (fun w r Hw => IH fuel' w r (le_S_n _ _ Hle) Hw) _ _ _ E)
    as E'.
  etransitivity; [exact (f_equal (option_map VObj) E') | exact H].
Qed.

Lemma mapWhereFieldNames_fuel_irrelevant (operatorsSet : symbol -> bool)
    (M : Model) (fuel fuel' : nat) (v r r' : value) :
  mapWhereFieldNames operatorsSet fuel v M = Some r ->
  mapWhereFieldNames operatorsSet fuel' v M = Some r' ->
  r = r'.
Proof.
  intros H H'. destruct (Nat.le_ge_cases fuel fuel') as [Hle|Hle].
  - apply (mapWhereFieldNames_more_fuel _ _ _ _ _ _ Hle) in H. congruence.
  - apply (mapWhereFieldNames_more_fuel _ _ _ _ _ _ Hle) in H'. congruence.
Qed.

(** ** mapWhereFieldNames: elements of array values *)

(** C2 at a where-object whose operator key holds an array of conditions:
    the plain-object element naming the renamed attribute [firstName]
    comes back unchanged, whereas the same condition held directly as a
    plain-object value is rewritten to [first_name]. *)
Theorem mapWhereFieldNames_array_elements :
  mapWhereFieldNames exampleOperators 3
    (VObj [(KSym 1, VArr [VObj [(KStr "firstName", VStr "Ada")]])])
    exampleModel
  = Some (VObj [(KSym 1, VArr [VObj [(KStr "firstName", VStr "Ada")]])])
  /\ mapWhereFieldNames exampleOperators 3
       (VObj [(KSym 1, VObj [(KStr "firstName", VStr "Ada")])])
       exampleModel
     = Some (VObj [(KSym 1, VObj [(KStr "first_name", VStr "Ada")])]).
Proof. split; reflexivity. Qed.

(** ** In-place updates *)

Lemma lookup_mapOptionFieldNames_with (mapWhere : value -> option value)
    (M : Model) (options r : props) (k : key) :
  mapOptionFieldNames_with mapWhere options M = Some r ->
  k <> KStr "attributes" -> k <> KStr "where" ->
  lookup k r = lookup k options.
Proof.
  intros H Ha Hw. unfold mapOptionFieldNames_with in H.
  set (options1 := match read (KStr "attributes") options with
                   | VArr l => _
                   | _ => options
                   end) in H.
  assert (E : lookup k options1 = lookup k options).
  { unfold options1. destruct (read (KStr "attributes") options);
      try reflexivity.
    rewrite lookup_assign. key_cases k (KStr "attributes");
      [contradiction | reflexivity]. }
  destruct (truthy _ && Lodash.isPlainObject _).
  - destruct (mapWhere _) as [w|]; [|discriminate].
    injection H as <-. rewrite lookup_assign.
    key_cases k (KStr "where"); [contradiction | exact E].
  - now injection H as <-.
Qed.




(** ** Symbol keys through mergeDefaults, merge and cloneDeep *)

Import LodashMerge.

Lemma same_symbols_refl (o : value) :
  indexed_target o = true -> same_symbols o o.
Proof. destruct o; simpl; intros H; try discriminate; auto. Qed.

Lemma same_symbols_trans (a b c : value) :
  same_symbols a b -> same_symbols b c -> same_symbols a c.
Proof.
  destruct a, b; simpl; try contradiction; destruct c; simpl;
    try contradiction; auto.
  - intros H1 H2 y. now rewrite H2.
  - intros [-> H1] [-> H2]. split; [reflexivity|]. intros y. now rewrite H2.
Qed.

Lemma same_symbols_named (o r : value) :
  same_symbols o r -> named_target r = named_target o.
Proof. destruct o, r; simpl; try contradiction; reflexivity. Qed.

Lemma same_symbols_indexed (o r : value) :
  same_symbols o r -> indexed_target r = indexed_target o.
Proof. destruct o, r; simpl; try contradiction; reflexivity. Qed.

Lemma lookup_symbol_assign (y : symbol) (k : pkey) (v : value) (f : props) :
  lookup (KSym y) (assign (pkey_key k) v f) = lookup (KSym y) f.
Proof. rewrite lookup_assign. now destruct k. Qed.

Lemma set_prop_ok (o : value) (k : pkey) (v : value) :
  key_fits k o = true ->
  exists r, set_prop o k v = Some r /\ same_symbols o r.
Proof.
  destruct o as [ | | | | | l | f | c f | ]; destruct k as [nm|i]; simpl;
    intros H; try discriminate;
    (eexists; split; [reflexivity|]); simpl; auto.
  - intros y. apply (lookup_symbol_assign y (PName nm)).
  - intros y. apply (lookup_symbol_assign y (PIndex i)).
  - split; [reflexivity|]. intros y. apply (lookup_symbol_assign y (PName nm)).
  - split; [reflexivity|]. intros y. apply (lookup_symbol_assign y (PIndex i)).
Qed.

Lemma key_fits_indexed (k : pkey) (o : value) :
  key_fits k o = true -> indexed_target o = true.
Proof. destruct k, o; simpl; auto. Qed.

Lemma assignMergeValue_ok (o : value) (k : pkey) (v : value) :
  key_fits k o = true ->
  exists r, assignMergeValue o k v = Some r /\ same_symbols o r.
Proof.
  intros H. unfold assignMergeValue.
  destruct (is_undefined v && has_prop o k).
  - exists o. split; [reflexivity|].
    apply same_symbols_refl. now apply key_fits_indexed with k.
  - now apply set_prop_ok.
Qed.

Lemma defaultsCustomizer_none (o s : value) :
  defaultsCustomizer o s = None ->
  o = VUndefined \/ exists f, o = VObj f.
Proof.
  unfold defaultsCustomizer, LodashClone.defined.
  destruct o; simpl; eauto; try discriminate.
  destruct native; simpl; [|discriminate].
  destruct (truthy s) eqn:E; simpl; [|discriminate].
  destruct s; simpl in *; discriminate.
Qed.

Lemma mergeProp_ok (recur : value -> option value) (k : pkey)
    (srcValue o : value) :
  merges_ok recur srcValue -> key_fits k o = true ->
  exists r,
    mergeProp defaultsCustomizer recur k srcValue (Some o) = Some r
    /\ same_symbols o r.
Proof.
  intros Hrec Hk. unfold mergeProp.
  destruct (defaultsCustomizer (get_prop o k) srcValue) as [nv|] eqn:Ec;
    [now apply assignMergeValue_ok|].
  apply defaultsCustomizer_none in Ec.
  destruct srcValue as [ | | | | | l | f | c f | i n cl ];
    try (now apply assignMergeValue_ok).
  - (* array source: the target is an array *)
    set (target := if isArray (get_prop o k) then get_prop o k
                   else match arrayLikeLength (get_prop o k) with
                        | Some n => VArr (copyArray (get_prop o k) n)
                        | None => VArr []
                        end).
    assert (Ht : target_for (VArr l) target = true).
    { unfold target. destruct Ec as [->|[g ->]]; cbn [isArray];
        [reflexivity | now destruct (arrayLikeLength (VObj g))]. }
    destruct (Hrec target Ht) as (nv & -> & _).
    now apply assignMergeValue_ok.
  - (* plain source: the target is the plain object already there, or a
       fresh one *)
    set (target := if isObject (get_prop o k)
                      && negb (Lodash.isFunction (get_prop o k))
                   then get_prop o k else VObj []).
    assert (Ht : target_for (VObj f) target = true).
    { unfold target. destruct Ec as [->|[g ->]]; reflexivity. }
    destruct (Hrec target Ht) as (nv & -> & _).
    now apply assignMergeValue_ok.
Qed.

Lemma merge_fields_ok (f : props) :
  Forall (fun kv =>
            merges_ok (fun t => baseMerge defaultsCustomizer t (snd kv))
              (snd kv)) f ->
  forall o, named_target o = true ->
    exists r,
      fold_fields
        (fun s v acc =>
           mergeProp defaultsCustomizer
             (fun t => baseMerge defaultsCustomizer t v) (PName s) v acc)
        f (Some o) = Some r
      /\ same_symbols o r.
Proof.
  induction 1 as [|[[s|y] v] f Hv Hf IH]; intros o Ho; cbn [fold_fields].
  - exists o. split; [reflexivity|]. apply same_symbols_refl.
    now destruct o.
  - simpl in Hv.
    destruct (mergeProp_ok _ (PName s) v o Hv Ho) as (o1 & -> & H1).
    destruct (IH o1) as (r & Hr & H2);
      [now rewrite (same_symbols_named _ _ H1)|].
    exists r. split; [exact Hr|]. now apply same_symbols_trans with o1.
  - now apply IH.
Qed.

Lemma merge_elems_ok (l : list value) :
  Forall (fun v =>
            merges_ok (fun t => baseMerge defaultsCustomizer t v) v) l ->
  forall i o, indexed_target o = true ->
    exists r,
      fold_elems
        (fun j v acc =>
           mergeProp defaultsCustomizer
             (fun t => baseMerge defaultsCustomizer t v) (PIndex j) v acc)
        i l (Some o) = Some r
      /\ same_symbols o r.
Proof.
  induction 1 as [|v l Hv Hl IH]; intros i o Ho; cbn [fold_elems].
  - exists o. split; [reflexivity|]. now apply same_symbols_refl.
  - destruct (mergeProp_ok _ (PIndex i) v o Hv Ho) as (o1 & -> & H1).
    destruct (IH (S i) o1) as (r & Hr & H2);
      [now rewrite (same_symbols_indexed _ _ H1)|].
    exists r. split; [exact Hr|]. now apply same_symbols_trans with o1.
Qed.

Lemma baseMerge_ok (source : value) :
  merges_ok (fun t => baseMerge defaultsCustomizer t source) source.
Proof.
  induction source
    as [ | | b | n | s | l IHl | f IHf | c f IHf | i n | i n r IHr ]
    using value_ind'; intros o Ho;
    try (exists o; split; [reflexivity | now apply same_symbols_refl]).
  - now apply (merge_elems_ok l IHl 0%nat o).
  - now apply (merge_fields_ok f IHf o).
  - now apply (merge_fields_ok f IHf o).
Qed.

(** [mergeDefaults] on a plain destination returns it updated, with its
    symbol-keyed properties as they were. *)
Lemma mergeDefaults_symbols (f : props) (b : value) :
  exists fo,
    mergeDefaults (VObj f) b = Some (VObj fo)
    /\ forall y, lookup (KSym y) fo = lookup (KSym y) f.
Proof.
  unfold mergeDefaults, mergeWith. destruct (truthy b).
  - destruct (baseMerge_ok b (VObj f)) as (r & Hr & Hs);
      [now destruct b|].
    destruct r; simpl in Hs; try contradiction. eauto.
  - eauto.
Qed.

Lemma mergeEntry_symbol_free (merge_ : list value -> option value)
    (result result' : props) (kv : string * value) :
  symbol_free result ->
  mergeEntry merge_ (Some result) kv = Some result' ->
  symbol_free result'.
Proof.
  intros Hfree. destruct kv as [key v]. unfold mergeEntry.
  assert (Hassign : forall x, symbol_free (assign (KStr key) x result)).
  { intros x y. rewrite lookup_assign. apply Hfree. }
  destruct (is_undefined v); [intros H; now injection H as <-|].
  destruct (negb (truthy (read (KStr key) result)));
    [intros H; injection H as <-; apply Hassign|].
  destruct (Lodash.isPlainObject v
            && Lodash.isPlainObject (read (KStr key) result)).
  - destruct (merge_ _) as [r|]; [|discriminate].
    intros H. injection H as <-. apply Hassign.
  - destruct v; try (intros H; injection H as <-; apply Hassign).
    destruct (read (KStr key) result);
      intros H; injection H as <-; apply Hassign.
Qed.

Lemma mergeEntry_none (merge_ : list value -> option value)
    (es : list (string * value)) :
  fold_left (mergeEntry merge_) es None = None.
Proof. induction es as [|kv es IH]; simpl; [reflexivity | exact IH]. Qed.

Lemma mergeEntries_symbol_free (merge_ : list value -> option value)
    (es : list (string * value)) :
  forall result result',
    symbol_free result ->
    fold_left (mergeEntry merge_) es (Some result) = Some result' ->
    symbol_free result'.
Proof.
  induction es as [|kv es IH]; intros result result' Hfree; cbn [fold_left].
  - intros H. now injection H as <-.
  - destruct (mergeEntry merge_ (Some result) kv) as [r1|] eqn:E.
    + apply IH. now apply mergeEntry_symbol_free with merge_ result kv.
    + rewrite mergeEntry_none. discriminate.
Qed.

(** Whatever [merge] returns is an object without symbol keys. *)
Lemma merge_symbol_free (fuel : nat) (args : list value) (r : value) :
  merge fuel args = Some r ->
  exists fo, r = VObj fo /\ symbol_free fo.
Proof.
  destruct fuel as [|fuel]; [discriminate|]. cbn [merge].
  assert (Hfold : forall (args : list value) acc fo,
            (forall a, acc = Some a -> symbol_free a) ->
            fold_left
              (fun acc obj =>
                 fold_left (mergeEntry (merge fuel))
                   (Lodash.forOwn_entries obj) acc) args acc = Some fo ->
            symbol_free fo).
  { clear. induction args as [|a args IH]; intros acc fo Hacc; cbn [fold_left].
    - intros ->. now apply Hacc.
    - apply IH. intros a' Ha'. destruct acc as [a0|].
      + apply (mergeEntries_symbol_free _ _ _ _ (Hacc a0 eq_refl) Ha').
      + rewrite mergeEntry_none in Ha'. discriminate. }
  match goal with
  | |- option_map VObj ?X = Some r -> _ => destruct X as [fo|] eqn:E
  end; [|discriminate].
  intros H. injection H as <-. exists fo. split; [reflexivity|].
  apply (Hfold args (Some []) fo); [|exact E].
  intros a Ha. injection Ha as <-. intros y. reflexivity.
Qed.

(** ** merge returns *)

Lemma values_below_assign (n : nat) (k : key) (v : value) (f : props) :
  depth v <= n -> values_below n f -> values_below n (assign k v f).
Proof.
  intros Hv Hf. induction Hf as [|[k0 v0] f H0 Hf IH]; simpl.
  - now repeat constructor.
  - destruct (key_eqb k k0); constructor; auto.
Qed.

Lemma values_below_read (n : nat) (k : key) (f : props) :
  values_below n f -> depth (read k f) <= n.
Proof.
  intros Hf. unfold read. destruct (lookup k f) as [v|] eqn:E; [|simpl; lia].
  destruct (lookup_In _ _ _ E) as (k' & _ & Hin).
  unfold values_below in Hf. rewrite Forall_forall in Hf.
  exact (Hf _ Hin).
Qed.

Lemma values_below_object (n : nat) (f : props) :
  values_below n f <-> depth (VObj f) <= S n.
Proof.
  simpl. unfold values_below. rewrite <- Nat.succ_le_mono, list_max_le.
  now rewrite Forall_map.
Qed.

Lemma entries_below_depth (v : value) : entries_below (pred (depth v)) v.
Proof.
  unfold entries_below.
  destruct v as [ | | | | s | l | f | c f | i n cl ]; simpl;
    try constructor.
  - apply (Forall_indexed_from (fun x => depth x <= 0)).
    induction s as [|ch s IH]; simpl; constructor; auto.
  - apply (Forall_indexed_from (fun x => depth x <= list_max (map depth l))).
    apply (proj1 (Forall_map depth (fun m => m <= list_max (map depth l)) l)).
    now apply list_max_le.
  - apply (Forall_string_entries
             (fun x => depth x <= list_max (map (fun kv => depth (snd kv)) f))).
    apply values_below_object. simpl. lia.
  - apply (Forall_string_entries
             (fun x => depth x <= list_max (map (fun kv => depth (snd kv)) f))).
    apply values_below_object. simpl. lia.
Qed.

Ltac stored_below :=
  eexists; split;
  [reflexivity | first [assumption | apply values_below_assign; assumption]].

Lemma mergeEntry_total (n : nat) (merge_ : list value -> option value)
    (result : props) (kv : string * value) :
  merge_rec_ok n merge_ -> values_below n result -> depth (snd kv) <= n ->
  exists result',
    mergeEntry merge_ (Some result) kv = Some result'
    /\ values_below n result'.
Proof.
  intros Hrec Hres Hkv. destruct kv as [key v]. simpl in Hkv.
  unfold mergeEntry.
  pose proof (values_below_read n (KStr key) result Hres) as Hcur.
  destruct (is_undefined v); [stored_below|].
  destruct (negb (truthy (read (KStr key) result))); [stored_below|].
  destruct (Lodash.isPlainObject v) eqn:Ev;
    destruct (Lodash.isPlainObject (read (KStr key) result)) eqn:Ec;
    cbn [andb].
  - destruct (Hrec _ _ Ec Ev Hcur Hkv) as (r & -> & Hr). stored_below.
  - destruct v; try discriminate.
    destruct (read (KStr key) result); stored_below.
  - destruct v; try stored_below.
    destruct (read (KStr key) result); try discriminate; stored_below.
  - destruct v as [ | | | | | xs | | | ]; try stored_below.
    destruct (read (KStr key) result) as [ | | | | | ys | | | ];
      try stored_below.
    eexists. split; [reflexivity|]. apply values_below_assign; [|exact Hres].
    simpl in *. rewrite map_app, list_max_app. lia.
Qed.

Lemma mergeEntries_total (n : nat) (merge_ : list value -> option value)
    (es : list (string * value)) :
  merge_rec_ok n merge_ ->
  Forall (fun kv : string * value => depth (snd kv) <= n) es ->
  forall result, values_below n result ->
    exists result',
      fold_left (mergeEntry merge_) es (Some result) = Some result'
      /\ values_below n result'.
Proof.
  intros Hrec Hes. induction Hes as [|kv es Hkv Hes IH]; intros result Hres;
    cbn [fold_left]; [eauto|].
  destruct (mergeEntry_total n merge_ result kv Hrec Hres Hkv)
    as (r1 & -> & H1).
  now apply IH.
Qed.

Lemma mergeArgs_total (n : nat) (merge_ : list value -> option value)
    (args : list value) :
  merge_rec_ok n merge_ -> Forall (entries_below n) args ->
  forall result, values_below n result ->
    exists result',
      fold_left
        (fun acc obj =>
           fold_left (mergeEntry merge_) (Lodash.forOwn_entries obj) acc)
        args (Some result) = Some result'
      /\ values_below n result'.
Proof.
  intros Hrec Hargs. induction Hargs as [|a args Ha Hargs IH];
    intros result Hres; cbn [fold_left]; [eauto|].
  destruct (mergeEntries_total n merge_ _ Hrec Ha result Hres)
    as (r1 & E & H1).
  unfold Lodash.forOwn_entries. rewrite E. now apply IH.
Qed.

Lemma entries_below_le (n m : nat) (v : value) :
  n <= m -> entries_below n v -> entries_below m v.
Proof.
  intros Hle H. unfold entries_below in *.
  eapply Forall_impl; [|exact H]. simpl. intros kv Hkv. lia.
Qed.

Lemma merge_unfold (fuel : nat) (args : list value) :
  merge (S fuel) args =
  option_map VObj
    (fold_left
       (fun acc obj =>
          fold_left (mergeEntry (merge fuel)) (Lodash.forOwn_entries obj) acc)
       args (Some [])).
Proof. reflexivity. Qed.

(** A fuel above the depth of the values merged gives a result. *)
Lemma merge_enough_fuel (n : nat) :
  forall args, Forall (entries_below n) args ->
    exists r, merge (S n) args = Some (VObj r) /\ values_below n r.
Proof.
  assert (Hstep : forall n, merge_rec_ok n (merge n) ->
            forall args, Forall (entries_below n) args ->
              exists r, merge (S n) args = Some (VObj r)
                        /\ values_below n r).
  { intros m Hrec args Hargs.
    destruct (mergeArgs_total m (merge m) args Hrec Hargs [])
      as (r & E & Hr); [constructor|].
    exists r. split; [|exact Hr].
    rewrite merge_unfold. exact (f_equal (option_map VObj) E). }
  induction n as [|n IH]; intros args Hargs; apply Hstep; try assumption.
  - intros cur val Hc _ Hd _. destruct cur; try discriminate. simpl in Hd. lia.
  - intros cur val Hc Hv Hdc Hdv.
    destruct (IH [cur; val]) as (r & Hr & Hbelow).
    + repeat constructor.
      * apply entries_below_le with (pred (depth cur)); [lia|].
        apply entries_below_depth.
      * apply entries_below_le with (pred (depth val)); [lia|].
        apply entries_below_depth.
    + exists r. split; [exact Hr|].
      now apply values_below_object.
Qed.

Lemma merge_returns (args : list value) :
  exists r,
    merge (S (list_max (map depth args))) args = Some (VObj r)
    /\ symbol_free r.
Proof.
  destruct (merge_enough_fuel (list_max (map depth args)) args)
    as (r & Hr & _).
  - assert (H : Forall (fun a => depth a <= list_max (map depth args)) args).
    { apply (proj1 (Forall_map depth
                      (fun m => m <= list_max (map depth args)) args)).
      now apply list_max_le. }
    eapply Forall_impl; [|exact H]. intros a Ha. cbv beta in Ha.
    apply entries_below_le with (pred (depth a)); [lia|].
    apply entries_below_depth.
  - exists r. split; [exact Hr|].
    destruct (merge_symbol_free _ _ _ Hr) as (fo & Hfo & Hfree).
    now injection Hfo as ->.
Qed.

Lemma cloneDeep_object (f : props) (onlyPlain : bool) :
  cloneDeep (VObj f) onlyPlain =
  VObj (map (fun kv =>
               (fst kv,
                LodashClone.baseClone (cloneCustomizer onlyPlain) true
                  (snd kv))) f).
Proof. reflexivity. Qed.

(** C1, as the code has it: [cloneDeep] keeps every operator-symbol key of
    its input, the value being the deep clone of the original, equal to
    it when no function with a [clone] method occurs in it;
    [mergeDefaults] returns its first argument with its symbol-keyed
    properties exactly as they were, none being taken from the second
    argument; [merge] returns an object without any symbol key. *)
Theorem operator_keys_through_clone_and_merge
    (operatorsSet : symbol -> bool) :
  (forall f onlyPlain y v,
     operatorsSet y = true -> lookup (KSym y) f = Some v ->
     exists fo,
       cloneDeep (VObj f) onlyPlain = VObj fo
       /\ lookup (KSym y) fo
          = Some (LodashClone.baseClone (cloneCustomizer onlyPlain) true v)
       /\ (no_clone_method v = true -> lookup (KSym y) fo = Some v))
  /\ (forall f b,
        exists fo,
          mergeDefaults (VObj f) b = Some (VObj fo)
          /\ forall y, lookup (KSym y) fo = lookup (KSym y) f)
  /\ (forall args,
        exists fuel r, merge fuel args = Some (VObj r) /\ symbol_free r)
  /\ (forall fuel args r,
        merge fuel args = Some r -> exists fo, r = VObj fo /\ symbol_free fo).
Proof.
  split; [|split; [|split]].
  - intros f onlyPlain y v _ Hv. rewrite cloneDeep_object.
    eexists. split; [reflexivity|].
    rewrite lookup_map_values, Hv. split; [reflexivity|].
    intros Hplain. simpl. now rewrite baseClone_fixed.
  - apply mergeDefaults_symbols.
  - intros args. destruct (merge_returns args) as (r & Hr & Hfree). eauto.
  - apply merge_symbol_free.
Qed.

Lemma operator_keys_through_clone_and_merge_witness :
  exists fo,
    cloneDeep (VObj [(KSym 1, VArr [VObj [(KStr "a", VNum 1)]])]) false
    = VObj fo
    /\ lookup (KSym 1) fo = Some (VArr [VObj [(KStr "a", VNum 1)]]).
Proof.
  destruct (operator_keys_through_clone_and_merge exampleOperators)
    as [Hclone _].
  destruct (Hclone [(KSym 1, VArr [VObj [(KStr "a", VNum 1)]])] false 1%nat
              (VArr [VObj [(KStr "a", VNum 1)]]) eq_refl eq_refl)
    as (fo & Hfo & _ & Hsame).
  exists fo. split; [exact Hfo | exact (Hsame eq_refl)].
Defined.

(** C1 fails as stated for [merge], and for the second argument of
    [mergeDefaults]: an operator-symbol key of the input is absent from
    the output. *)
Lemma merge_drops_operator_keys :
  merge 2 [VObj [(KSym 1, VNum 5); (KStr "a", VNum 1)]]
  = Some (VObj [(KStr "a", VNum 1)])
  /\ ~ keeps_operator_keys exampleOperators
         [(KSym 1, VNum 5); (KStr "a", VNum 1)]
         (VObj [(KStr "a", VNum 1)])
  /\ mergeDefaults (VObj []) (VObj [(KSym 1, VNum 5); (KStr "a", VNum 1)])
     = Some (VObj [(KStr "a", VNum 1)]).
Proof.
  split; [reflexivity|]. split; [|reflexivity].
  intros H. destruct (H 1%nat (VNum 5) eq_refl eq_refl) as (fo & Hfo & Hl).
  injection Hfo as <-. discriminate.
Qed.

(* ================================================================== *)
(** * Further properties of the helpers *)
(* ================================================================== *)

Import Rest.

(** ** defaults *)

Lemma isEqual_undefined (v : value) :
  isEqual v VUndefined = is_undefined v.
Proof. now destruct v. Qed.

Lemma defaultsKey_cases (source : value) (o : props) (k : key) :
  defaultsKey source o k =
  if is_undefined (read k o) then assign k (prop_of source k) o else o.
Proof.
  unfold defaultsKey, objectPrototype. rewrite isEqual_undefined.
  now destruct (is_undefined (read k o)).
Qed.

Lemma read_defaultsKeys (source : value) (k : key) (keys : list key) :
  forall o,
    read k (fold_left (defaultsKey source) keys o) =
    if is_undefined (read k o) && existsb (key_eqb k) keys
    then prop_of source k else read k o.
Proof.
  induction keys as [|k' keys IH]; intros o; cbn [fold_left existsb].
  - now rewrite andb_false_r.
  - rewrite IH, defaultsKey_cases.
    key_cases k k'.
    + subst k'. cbn [orb]. rewrite andb_true_r.
      destruct (is_undefined (read k o)) eqn:Eu.
      * rewrite read_assign, key_eqb_refl.
        now destruct (is_undefined (prop_of source k) && _) eqn:E2.
      * now rewrite Eu.
    + cbn [orb].
      destruct (is_undefined (read k' o)); [|reflexivity].
      rewrite read_assign.
      destruct (key_eqb k k') eqn:E'; [|reflexivity].
      apply key_eqb_eq in E'. contradiction.
Qed.

Lemma read_defaults (operatorsSet : symbol -> bool) (k : key)
    (sources : list value) :
  forall o,
    read k (defaults operatorsSet o sources) =
    firstDefined operatorsSet k (read k o) sources.
Proof.
  unfold defaults, firstDefined.
  induction sources as [|s sources IH]; intros o; cbn [fold_left];
    [reflexivity|].
  rewrite IH. f_equal.
  destruct (truthy s).
  - now rewrite read_defaultsKeys, andb_true_r.
  - now rewrite andb_false_r.
Qed.

Lemma firstDefined_defined (operatorsSet : symbol -> bool) (k : key)
    (sources : list value) (cur : value) :
  is_undefined cur = false -> firstDefined operatorsSet k cur sources = cur.
Proof.
  unfold firstDefined. induction sources as [|s sources IH];
    intros H; cbn [fold_left]; [reflexivity|].
  rewrite H. cbn [andb]. now apply IH.
Qed.

(** ** getComplexKeys *)

Lemma In_symbol_keys (y : symbol) (f : props) :
  In y (symbol_keys f) <-> In (KSym y) (map fst f).
Proof.
  induction f as [|[[s|x] v] f IH]; simpl; [tauto | |].
  - rewrite IH. split; [auto|]. intros [H|H]; [discriminate | exact H].
  - rewrite IH. split; intros [H|H]; auto; left; congruence.
Qed.

Lemma In_string_keys (s : string) (f : props) :
  In s (map fst (string_entries f)) <-> In (KStr s) (map fst f).
Proof.
  induction f as [|[[t|x] v] f IH]; simpl; [tauto | |].
  - rewrite IH. split; intros [H|H]; auto; left; congruence.
  - rewrite IH. split; [auto|]. intros [H|H]; [discriminate | exact H].
Qed.

Lemma getComplexKeys_In (operatorsSet : symbol -> bool)
    (f : props) (k : key) :
  In k (getComplexKeys operatorsSet (VObj f)) <->
  In k (map fst f)
  /\ match k with KSym y => operatorsSet y = true | KStr _ => True end.
Proof.
  unfold getComplexKeys, getOperators. cbn [own_symbols own_entries].
  split.
  - intros H. apply in_app_iff in H.
    destruct H as [H|H]; apply in_map_iff in H.
    + destruct H as (y & <- & Hy).
      apply filter_In in Hy. destruct Hy as [Hy Hop].
      split; [now apply In_symbol_keys | exact Hop].
    + destruct H as ((s, v) & <- & Hs).
      split; [|exact I]. apply In_string_keys.
      apply in_map_iff. now exists (s, v).
  - intros [Hin Hk]. apply in_or_app. destruct k as [s|y].
    + right. apply In_string_keys, in_map_iff in Hin.
      destruct Hin as ((s', v) & Hs & Hin). simpl in Hs. subst s'.
      apply in_map_iff. now exists (s, v).
    + left. apply in_map_iff. exists y. split; [reflexivity|].
      apply filter_In. split; [now apply In_symbol_keys | exact Hk].
Qed.

(** The complex keys of a plain object are its string keys and those of
    its symbol keys that are operators, and nothing else. *)
Theorem getComplexKeys_membership (operatorsSet : symbol -> bool)
    (f : props) (k : key) :
  In k (getComplexKeys operatorsSet (VObj f)) <->
  In k (map fst f)
  /\ match k with KSym y => operatorsSet y = true | KStr _ => True end.
Proof.
  exact (getComplexKeys_In operatorsSet f k).
Qed.

Lemma getComplexKeys_symbol (operatorsSet : symbol -> bool) (v : value)
    (y : symbol) :
  In (KSym y) (getComplexKeys operatorsSet v) -> operatorsSet y = true.
Proof.
  unfold getComplexKeys, getOperators. rewrite in_app_iff, !in_map_iff.
  intros [(x & Hx & Hin)|(kv & Hkv & _)]; [|discriminate].
  injection Hx as ->. apply filter_In in Hin. tauto.
Qed.

Lemma lookup_defaultsKeys_other (source : value) (k : key) (keys : list key) :
  ~ In k keys ->
  forall o, lookup k (fold_left (defaultsKey source) keys o) = lookup k o.
Proof.
  induction keys as [|k' keys IH]; intros Hk o; cbn [fold_left];
    [reflexivity|].
  rewrite IH by (intros X; apply Hk; now right).
  rewrite defaultsKey_cases.
  destruct (is_undefined (read k' o)); [|reflexivity].
  rewrite lookup_assign. key_cases k k'; [|reflexivity].
  subst. exfalso. apply Hk. now left.
Qed.

Lemma existsb_key (k : key) (keys : list key) :
  In k keys -> existsb (key_eqb k) keys = true.
Proof.
  intros H. apply existsb_exists. exists k. split; [exact H|].
  apply key_eqb_refl.
Qed.

(** [defaults], key by key: the value left under a key is the first one
    that is not [undefined] among the value the object had and the values
    of the sources, in order, that list the key among their complex
    keys. *)
Theorem defaults_first_defined (operatorsSet : symbol -> bool)
    (objectIn : props) (sources : list value) (k : key) :
  read k (defaults operatorsSet objectIn sources) =
  firstDefined operatorsSet k (read k objectIn) sources.
Proof. apply read_defaults. Qed.

(** [defaults] never replaces a property of the object whose value is not
    [undefined]. *)
Theorem defaults_keeps_defined (operatorsSet : symbol -> bool)
    (objectIn : props) (sources : list value) (k : key) :
  is_undefined (read k objectIn) = false ->
  read k (defaults operatorsSet objectIn sources) = read k objectIn.
Proof.
  intros H. rewrite read_defaults. now apply firstDefined_defined.
Qed.

Lemma defaults_keeps_defined_witness :
  read (KStr "limit")
    (defaults exampleOperators [(KStr "limit", VNum 0)]
       [VObj [(KStr "limit", VNum 10); (KStr "raw", VBool true)]])
  = VNum 0.
Proof.
  apply (defaults_keeps_defined exampleOperators [(KStr "limit", VNum 0)]
           [VObj [(KStr "limit", VNum 10); (KStr "raw", VBool true)]]
           (KStr "limit")).
  reflexivity.
Defined.

(** Symbol keys in [defaults] and [mergeDefaults]: [defaults] copies a
    missing operator symbol from a source, which [mergeDefaults] does not,
    and never touches a symbol key that is not an operator. *)
Theorem defaults_copies_operators_only (operatorsSet : symbol -> bool) :
  (forall objectIn sources y,
     operatorsSet y = false ->
     lookup (KSym y) (defaults operatorsSet objectIn sources)
     = lookup (KSym y) objectIn)
  /\ (forall objectIn fs y v,
        operatorsSet y = true ->
        lookup (KSym y) objectIn = None ->
        lookup (KSym y) fs = Some v ->
        read (KSym y) (defaults operatorsSet objectIn [VObj fs]) = v
        /\ exists fo,
             mergeDefaults (VObj objectIn) (VObj fs) = Some (VObj fo)
             /\ lookup (KSym y) fo = None).
Proof.
  split.
  - intros objectIn sources y Hy. unfold defaults. revert objectIn.
    induction sources as [|s sources IH]; intros o; cbn [fold_left];
      [reflexivity|].
    rewrite IH. destruct (truthy s); [|reflexivity].
    apply lookup_defaultsKeys_other. intros Hin.
    apply getComplexKeys_symbol in Hin. congruence.
  - intros o fs y v Hy Ho Hv. split.
    + rewrite read_defaults. unfold firstDefined. cbn [fold_left truthy].
      unfold read at 1. rewrite Ho. cbn [is_undefined andb].
      rewrite existsb_key.
      * cbn [prop_of]. unfold read. now rewrite Hv.
      * apply getComplexKeys_In. split; [|exact Hy].
        destruct (lookup_In _ _ _ Hv) as (k' & -> & Hin).
        apply in_map_iff. now exists (KSym y, v).
    + destruct (mergeDefaults_symbols o (VObj fs)) as (fo & Hfo & Hsym).
      exists fo. split; [exact Hfo|]. now rewrite Hsym.
Qed.

Lemma defaults_copies_operators_only_witness :
  read (KSym 1)
    (defaults exampleOperators [(KStr "a", VNum 1)]
       [VObj [(KSym 1, VNum 5); (KSym 50, VNum 6)]]) = VNum 5
  /\ lookup (KSym 50)
       (defaults exampleOperators [(KStr "a", VNum 1)]
          [VObj [(KSym 1, VNum 5); (KSym 50, VNum 6)]]) = None.
Proof.
  destruct (defaults_copies_operators_only exampleOperators) as [H1 H2].
  split.
  - apply (H2 [(KStr "a", VNum 1)] [(KSym 1, VNum 5); (KSym 50, VNum 6)]
             1%nat (VNum 5)); reflexivity.
  - rewrite H1; reflexivity.
Defined.

(** ** cloneDeep *)

Lemma baseClone_onlyPlain (nested : bool) (v : value) :
  LodashClone.baseClone (cloneCustomizer true) nested v = v.
Proof.
  revert nested.
  induction v as [ | | b | n | s | l IHl | f IHf | c f IHf | i n | i n r IHr ]
    using value_ind'; intros nested; try reflexivity.
  - cbn [LodashClone.baseClone cloneCustomizer isArray orb]. f_equal.
    apply map_fixed. eapply Forall_impl; [|exact IHl]. auto.
  - cbn [LodashClone.baseClone cloneCustomizer isArray Lodash.isPlainObject orb].
    f_equal. apply map_fixed. eapply Forall_impl; [|exact IHf].
    intros [k x] Hx. simpl in *. now rewrite Hx.
Qed.

Lemma baseClone_top (customizer : value -> option value) (v : value) :
  Lodash.isFunction v = false ->
  LodashClone.baseClone customizer false v
  = LodashClone.baseClone customizer true v.
Proof. destruct v; intros H; try discriminate; reflexivity. Qed.

(** [cloneDeep] gives an equal copy: with [onlyPlain], of every truthy
    input; without it, of every truthy input other than a function in
    which no function carrying a [clone] method occurs.  Non-plain objects
    inside (models, instances) are kept as they are. *)
Theorem cloneDeep_equal_copy (v : value) :
  truthy v = true ->
  cloneDeep v true = v
  /\ (Lodash.isFunction v = false -> no_clone_method v = true ->
      cloneDeep v false = v).
Proof.
  intros Hv. unfold cloneDeep, LodashClone.cloneDeepWith. rewrite Hv. split.
  - apply baseClone_onlyPlain.
  - intros Hf Hc. rewrite baseClone_top by exact Hf.
    now apply baseClone_fixed.
Qed.

Lemma cloneDeep_equal_copy_witness :
  cloneDeep
    (VObj [(KStr "model", VInst 7 [(KStr "fn", VFunc 1 false (Some VNull))]);
           (KSym 1, VArr [VNum 1; VObj []])]) false
  = VObj [(KStr "model", VInst 7 [(KStr "fn", VFunc 1 false (Some VNull))]);
          (KSym 1, VArr [VNum 1; VObj []])].
Proof.
  apply (cloneDeep_equal_copy
           (VObj [(KStr "model",
                   VInst 7 [(KStr "fn", VFunc 1 false (Some VNull))]);
                  (KSym 1, VArr [VNum 1; VObj []])]) eq_refl);
    reflexivity.
Defined.

(** A function with a [clone] method held in a plain object is replaced by
    what the method returns, unless [onlyPlain] is set, in which case the
    function itself is kept. *)
Theorem cloneDeep_uses_clone_method (f : props) (k : key) (i : nat)
    (n : bool) (r : value) :
  lookup k f = Some (VFunc i n (Some r)) ->
  is_undefined r = false ->
  (exists fo, cloneDeep (VObj f) false = VObj fo /\ lookup k fo = Some r)
  /\ (exists fo, cloneDeep (VObj f) true = VObj fo
                 /\ lookup k fo = Some (VFunc i n (Some r))).
Proof.
  intros Hk Hr. split; rewrite cloneDeep_object; eexists;
    (split; [reflexivity|]); rewrite lookup_map_values, Hk; cbn [option_map].
  - f_equal. unfold LodashClone.baseClone, cloneCustomizer. simpl.
    unfold LodashClone.defined. now rewrite Hr.
  - reflexivity.
Qed.

Lemma cloneDeep_uses_clone_method_witness :
  exists fo,
    cloneDeep (VObj [(KStr "fn", VFunc 3 false (Some (VStr "copy")))]) false
    = VObj fo
    /\ lookup (KStr "fn") fo = Some (VStr "copy").
Proof.
  destruct (cloneDeep_uses_clone_method
              [(KStr "fn", VFunc 3 false (Some (VStr "copy")))]
              (KStr "fn") 3 false (VStr "copy") eq_refl eq_refl) as [H _].
  exact H.
Defined.

(** ** Objects built by successive assignments *)

Lemma assign_absent (k : key) (v : value) (f : props) :
  lookup k f = None -> assign k v f = (f ++ [(k, v)])%list.
Proof.
  induction f as [|[k0 v0] f IH]; simpl; [reflexivity|].
  destruct (key_eqb k k0); [discriminate|]. intros H. now rewrite IH.
Qed.

Lemma lookup_app (k : key) (f g : props) :
  lookup k (f ++ g)%list =
  match lookup k f with Some v => Some v | None => lookup k g end.
Proof.
  induction f as [|[k0 v0] f IH]; simpl; [reflexivity|].
  now destruct (key_eqb k k0).
Qed.

Lemma string_entries_as_property (es : list (string * value)) :
  string_entries (map as_property es) = es.
Proof.
  induction es as [|[k v] es IH]; simpl; [reflexivity | now rewrite IH].
Qed.

Lemma NoDup_keys_filter (p : string * value -> bool)
    (es : list (string * value)) :
  NoDup (map fst es) -> NoDup (map fst (filter p es)).
Proof.
  induction es as [|kv es IH]; simpl; intros H; [constructor|].
  inversion H as [|? ? Hnotin Hnd]; subst.
  destruct (p kv); simpl; [|now apply IH].
  constructor; [|now apply IH].
  intros Hin. apply Hnotin. apply in_map_iff in Hin.
  destruct Hin as (x & Hx & Hin). apply filter_In in Hin.
  apply in_map_iff. exists x. tauto.
Qed.

Lemma filter_twice {A : Type} (p : A -> bool) (l : list A) :
  filter p (filter p l) = filter p l.
Proof.
  induction l as [|x l IH]; simpl; [reflexivity|].
  destruct (p x) eqn:E; simpl; [rewrite E|]; congruence.
Qed.

(** ** removeNullValuesFromHash: order and idempotence *)

Lemma keepEntry_kept (options : nullOptions) (acc : props)
    (kv : string * value) :
  keepEntry (match allowNull options with Some a => a | None => [] end)
    acc kv =
  if kept_entry options kv then assign (KStr (fst kv)) (snd kv) acc else acc.
Proof.
  destruct kv as [k v]. unfold keepEntry, kept_entry, kept. simpl.
  destruct (allowNull options) as [a|]; simpl;
    [destruct (Str.includes a k)|];
    destruct (Str.endsWith k "Id"), (is_nullish v); reflexivity.
Qed.

Lemma keepEntries_filter (options : nullOptions)
    (es : list (string * value)) :
  NoDup (map fst es) ->
  forall acc,
    (forall kv, In kv es -> lookup (KStr (fst kv)) acc = None) ->
    fold_left
      (keepEntry (match allowNull options with Some a => a | None => [] end))
      es acc
    = (acc ++ map as_property (filter (kept_entry options) es))%list.
Proof.
  induction es as [|kv es IH]; intros Hnd acc Hacc; cbn [fold_left filter].
  - now rewrite app_nil_r.
  - inversion Hnd as [|? ? Hnotin Hnd']; subst.
    rewrite keepEntry_kept.
    destruct (kept_entry options kv) eqn:Ek.
    + rewrite assign_absent by (apply Hacc; now left).
      rewrite IH; [now rewrite <- app_assoc | exact Hnd' |].
      intros kv' Hin. rewrite lookup_app, Hacc by now right.
      simpl. destruct (String.eqb (fst kv') (fst kv)) eqn:E; [|reflexivity].
      apply String.eqb_eq in E. exfalso. apply Hnotin. rewrite <- E.
      now apply in_map.
    + apply IH; [exact Hnd'|]. intros kv' Hin. apply Hacc. now right.
Qed.

Lemma removeNull_entries (hash : value) (options : nullOptions) :
  distinct_keys hash ->
  fst (removeNullValuesFromHash hash true options)
  = VObj (map as_property
            (filter (kept_entry options) (own_entries hash))).
Proof.
  intros Hnd. unfold removeNullValuesFromHash. cbn [fst]. f_equal.
  unfold Lodash.forIn_entries.
  now rewrite keepEntries_filter.
Qed.

(** With [omitNull] set, the result of [removeNullValuesFromHash] lists
    the kept entries of the hash in the order the hash has them. *)
Theorem removeNullValuesFromHash_keeps_order (hash : value)
    (options : nullOptions) :
  distinct_keys hash ->
  fst (removeNullValuesFromHash hash true options)
  = VObj (map as_property
            (filter (kept_entry options) (own_entries hash))).
Proof. apply removeNull_entries. Qed.

Lemma removeNullValuesFromHash_keeps_order_witness :
  fst (removeNullValuesFromHash
         (VObj [(KStr "b", VNum 1); (KStr "a", VNull); (KStr "aId", VNull)])
         true {| allowNull := None |})
  = VObj [(KStr "b", VNum 1); (KStr "aId", VNull)].
Proof.
  rewrite (removeNullValuesFromHash_keeps_order
             (VObj [(KStr "b", VNum 1); (KStr "a", VNull);
                    (KStr "aId", VNull)]) {| allowNull := None |});
    [reflexivity|].
  unfold distinct_keys. simpl.
  repeat constructor; simpl; intuition discriminate.
Defined.

(** Removing the null values a second time, with the options object as
    the first call left it, changes nothing. *)
Theorem removeNullValuesFromHash_idempotent (hash : value)
    (options : nullOptions) :
  distinct_keys hash ->
  fst (removeNullValuesFromHash
         (fst (removeNullValuesFromHash hash true options)) true
         (snd (removeNullValuesFromHash hash true options)))
  = fst (removeNullValuesFromHash hash true options).
Proof.
  intros Hnd. rewrite (removeNull_entries hash options Hnd).
  set (es := filter (kept_entry options) (own_entries hash)).
  assert (Hnd' : distinct_keys (VObj (map as_property es))).
  { unfold distinct_keys. cbn [own_entries].
    rewrite string_entries_as_property. now apply NoDup_keys_filter. }
  rewrite (removeNull_entries _ _ Hnd'). cbn [own_entries].
  rewrite string_entries_as_property. f_equal. f_equal.
  assert (E : forall kv,
            kept_entry (snd (removeNullValuesFromHash hash true options)) kv
            = kept_entry options kv).
  { intros [k v]. unfold kept_entry, kept, removeNullValuesFromHash.
    cbn [snd allowNull fst]. now destruct (allowNull options). }
  rewrite (filter_ext _ _ E). apply filter_twice.
Qed.

Lemma removeNullValuesFromHash_idempotent_witness :
  fst (removeNullValuesFromHash
         (VObj [(KStr "b", VNum 1); (KStr "aId", VNull)]) true
         {| allowNull := Some [] |})
  = VObj [(KStr "b", VNum 1); (KStr "aId", VNull)].
Proof.
  assert (Hnd : distinct_keys
                  (VObj [(KStr "b", VNum 1); (KStr "a", VNull);
                         (KStr "aId", VNull)])).
  { unfold distinct_keys. simpl.
    repeat constructor; simpl; intuition discriminate. }
  exact (removeNullValuesFromHash_idempotent _ {| allowNull := None |} Hnd).
Defined.

(** ** flattenObjectDeep: no leaf is lost, and flattening twice *)

Lemma hasOwn_assign (k k' : key) (v : value) (f : props) :
  hasOwn k (assign k' v f) = key_eqb k k' || hasOwn k f.
Proof.
  unfold hasOwn. rewrite lookup_assign. now destruct (key_eqb k k').
Qed.

Lemma flattenEntries_mono (subPath : option string) (k : key)
    (es : list (string * value)) :
  Forall (fun kv => forall sp acc, hasOwn k acc = true ->
            hasOwn k (flattenObject (snd kv) sp acc) = true) es ->
  forall acc, hasOwn k acc = true ->
    hasOwn k (fold_left
                (fun a kv => flattenVisit subPath (fst kv) (snd kv) a)
                es acc) = true.
Proof.
  induction 1 as [|[key w] es Hw Hes IH]; intros acc Hacc; cbn [fold_left];
    [exact Hacc|].
  apply IH. unfold flattenVisit. cbn [fst snd] in *.
  destruct (is_nonnull_object w); [now apply Hw|].
  rewrite hasOwn_assign, Hacc. apply orb_true_r.
Qed.

Lemma flattenObject_mono (k : key) (obj : value) :
  forall sp acc, hasOwn k acc = true ->
    hasOwn k (flattenObject obj sp acc) = true.
Proof.
  induction obj as [ | | b | n | s | l IHl | f IHf | c f IHf | i n | i n r IHr ]
    using value_ind'; intros sp acc Hacc;
    try (rewrite flattenObject_leaf by reflexivity; exact Hacc);
    rewrite flattenObject_entries by reflexivity;
    (apply flattenEntries_mono; [|exact Hacc]).
  - apply (Forall_own_entries
             (fun w => forall sp acc, hasOwn k acc = true ->
                hasOwn k (flattenObject w sp acc) = true) (VArr l));
      [exact IHl | reflexivity].
  - apply (Forall_own_entries
             (fun w => forall sp acc, hasOwn k acc = true ->
                hasOwn k (flattenObject w sp acc) = true) (VObj f));
      [exact IHf | reflexivity].
  - apply (Forall_own_entries
             (fun w => forall sp acc, hasOwn k acc = true ->
                hasOwn k (flattenObject w sp acc) = true) (VInst c f));
      [exact IHf | reflexivity].
Qed.

Lemma flattenVisit_mono (subPath : option string) (k : key)
    (es : list (string * value)) :
  forall acc, hasOwn k acc = true ->
    hasOwn k (fold_left
                (fun a kv => flattenVisit subPath (fst kv) (snd kv) a)
                es acc) = true.
Proof.
  apply flattenEntries_mono. apply Forall_forall. intros kv _.
  apply flattenObject_mono.
Qed.

Lemma flattenObject_reaches (obj u : value) (path : list string) :
  reaches obj path u -> path <> [] -> is_nonnull_object u = false ->
  forall sp acc,
    exists s, joinPath sp path = Some s
              /\ hasOwn (KStr s) (flattenObject obj sp acc) = true.
Proof.
  induction 1 as [v|v w u key path Hv Hin Hr IH]; intros Hne Hleaf sp acc;
    [contradiction|].
  rewrite flattenObject_entries by exact Hv.
  destruct (in_split _ _ Hin) as (pre & post & ->).
  rewrite fold_left_app. cbn [fold_left fst snd].
  set (acc1 := fold_left _ pre acc).
  assert (Hat : exists s, joinPath sp (key :: path) = Some s
                          /\ hasOwn (KStr s) (flattenVisit sp key w acc1)
                             = true).
  { unfold flattenVisit. destruct path as [|k2 path].
    - inversion Hr; subst. rewrite Hleaf.
      exists (pathToProperty sp key). split; [reflexivity|].
      now rewrite hasOwn_assign, key_eqb_refl.
    - assert (Hw : is_nonnull_object w = true) by (inversion Hr; assumption).
      rewrite Hw.
      destruct (IH ltac:(discriminate) Hleaf
                  (Some (pathToProperty sp key)) acc1) as (s & Hs & Hown).
      exists s. split; [exact Hs | exact Hown]. }
  destruct Hat as (s & Hs & Hown). exists s. split; [exact Hs|].
  now apply flattenVisit_mono.
Qed.

(** Every leaf of a plain object reached by a non-empty path of string
    keys has its key in the flattened object. *)
Theorem flattenObjectDeep_complete (f : props) (path : list string)
    (u : value) :
  reaches (VObj f) path u -> path <> [] -> is_nonnull_object u = false ->
  exists r s,
    flattenObjectDeep (VObj f) = VObj r
    /\ joinPath None path = Some s
    /\ lookup (KStr s) r <> None.
Proof.
  intros Hr Hne Hleaf.
  destruct (flattenObject_reaches _ _ _ Hr Hne Hleaf None [])
    as (s & Hs & Hown).
  eexists. exists s. split; [reflexivity|]. split; [exact Hs|].
  unfold hasOwn in Hown.
  destruct (lookup (KStr s) (flattenObject (VObj f) None [])); congruence.
Qed.

Lemma flattenObjectDeep_complete_witness :
  exists r,
    flattenObjectDeep
      (VObj [(KStr "a", VArr [VNum 1; VObj [(KStr "b", VNull)]])]) = VObj r
    /\ lookup (KStr "a.1.b") r <> None.
Proof.
  destruct (flattenObjectDeep_complete
              [(KStr "a", VArr [VNum 1; VObj [(KStr "b", VNull)]])]
              ["a"; "1"; "b"] VNull) as (r & s & Hr & Hs & Hl).
  - apply reaches_step with (VArr [VNum 1; VObj [(KStr "b", VNull)]]);
      [reflexivity | now left |].
    apply reaches_step with (VObj [(KStr "b", VNull)]);
      [reflexivity | right; now left |].
    apply reaches_step with VNull; [reflexivity | now left | constructor].
  - discriminate.
  - reflexivity.
  - exists r. split; [exact Hr|]. injection Hs as <-. exact Hl.
Defined.

Lemma lookup_None_keys (k : key) (f : props) :
  lookup k f = None <-> ~ In k (map fst f).
Proof.
  induction f as [|[k0 v0] f IH]; simpl; [tauto|].
  key_cases k k0.
  - subst. split; [discriminate | intros H; exfalso; apply H; now left].
  - rewrite IH. split; [intros H [X|X]; [congruence | tauto] | tauto].
Qed.

Lemma keys_assign (k : key) (v : value) (f : props) :
  map fst (assign k v f) =
  if hasOwn k f then map fst f else (map fst f ++ [k])%list.
Proof.
  unfold hasOwn. induction f as [|[k0 v0] f IH]; simpl; [reflexivity|].
  key_cases k k0; simpl; [reflexivity|].
  rewrite IH. now destruct (lookup k f).
Qed.

Lemma flat_assign (p : string) (v : value) (acc : props) :
  is_nonnull_object v = false -> flat acc -> flat (assign (KStr p) v acc).
Proof.
  intros Hv [Hnd Hall]. split.
  - rewrite keys_assign. unfold hasOwn.
    destruct (lookup (KStr p) acc) eqn:E; [exact Hnd|].
    apply lookup_None_keys in E.
    apply NoDup_app; [exact Hnd | repeat constructor; auto |].
    intros a Ha [<-|[]]. contradiction.
  - clear Hnd. induction Hall as [|[k0 v0] f H0 Hf IH]; cbn [assign].
    + repeat constructor; simpl; eauto.
    + destruct (key_eqb (KStr p) k0); constructor; auto.
      simpl in *. split; [apply H0 | exact Hv].
Qed.

Lemma flattenEntries_flat (subPath : option string)
    (es : list (string * value)) :
  Forall (fun kv => forall sp acc, flat acc ->
            flat (flattenObject (snd kv) sp acc)) es ->
  forall acc, flat acc ->
    flat (fold_left
            (fun a kv => flattenVisit subPath (fst kv) (snd kv) a) es acc).
Proof.
  induction 1 as [|[key w] es Hw Hes IH]; intros acc Hacc; cbn [fold_left];
    [exact Hacc|].
  apply IH. unfold flattenVisit. cbn [fst snd] in *.
  destruct (is_nonnull_object w) eqn:E; [now apply Hw|].
  now apply flat_assign.
Qed.

Lemma flattenObject_flat (obj : value) :
  forall sp acc, flat acc -> flat (flattenObject obj sp acc).
Proof.
  induction obj as [ | | b | n | s | l IHl | f IHf | c f IHf | i n | i n r IHr ]
    using value_ind'; intros sp acc Hacc;
    try (rewrite flattenObject_leaf by reflexivity; exact Hacc);
    rewrite flattenObject_entries by reflexivity;
    (apply flattenEntries_flat; [|exact Hacc]).
  - apply (Forall_own_entries
             (fun w => forall sp acc, flat acc ->
                flat (flattenObject w sp acc)) (VArr l));
      [exact IHl | reflexivity].
  - apply (Forall_own_entries
             (fun w => forall sp acc, flat acc ->
                flat (flattenObject w sp acc)) (VObj f));
      [exact IHf | reflexivity].
  - apply (Forall_own_entries
             (fun w => forall sp acc, flat acc ->
                flat (flattenObject w sp acc)) (VInst c f));
      [exact IHf | reflexivity].
Qed.

Lemma flatten_flat_entries (r : props) :
  flat r ->
  forall acc,
    (forall kv, In kv r -> lookup (fst kv) acc = None) ->
    fold_fields (flattenVisit None) r acc = (acc ++ r)%list.
Proof.
  intros [Hnd Hall]. induction Hall as [|[k v] r [[s Hs] Hv] Hr IH];
    intros acc Hacc; cbn [fold_fields].
  - now rewrite app_nil_r.
  - simpl in Hs, Hv. subst k.
    inversion Hnd as [|? ? Hnotin Hnd']; subst.
    unfold flattenVisit at 2. rewrite Hv. cbn [pathToProperty].
    rewrite assign_absent by (apply (Hacc (KStr s, v)); now left).
    rewrite IH; [now rewrite <- app_assoc | exact Hnd' |].
    intros kv Hin. rewrite lookup_app, Hacc by now right.
    simpl. key_cases (fst kv) (KStr s); [|reflexivity].
    exfalso. apply Hnotin. rewrite <- E. now apply in_map.
Qed.

(** Flattening a flattened object gives it back. *)
Theorem flattenObjectDeep_idempotent (v : value) :
  flattenObjectDeep (flattenObjectDeep v) = flattenObjectDeep v.
Proof.
  destruct (Lodash.isPlainObject v) eqn:E.
  - assert (Hv : flattenObjectDeep v = VObj (flattenObject v None []))
      by (unfold flattenObjectDeep; now rewrite E).
    assert (Hflat : flat (flattenObject v None [])).
    { apply flattenObject_flat. split; constructor. }
    rewrite Hv. unfold flattenObjectDeep. cbn [Lodash.isPlainObject].
    f_equal.
    change (flattenObject (VObj (flattenObject v None [])) None [])
      with (fold_fields (flattenVisit None) (flattenObject v None []) []).
    rewrite flatten_flat_entries; [reflexivity | exact Hflat | reflexivity].
  - assert (Hv : flattenObjectDeep v = v)
      by (unfold flattenObjectDeep; now rewrite E).
    now rewrite !Hv.
Qed.

(** ** merge: which keys the result has *)

Lemma mergeEntry_assigns (merge_ : list value -> option value)
    (result result' : props) (key : string) (v : value) :
  mergeEntry merge_ (Some result) (key, v) = Some result' ->
  (is_undefined v = true /\ result' = result)
  \/ (is_undefined v = false
      /\ exists x, result' = assign (KStr key) x result
                   /\ (x = v \/ merge_ [read (KStr key) result; v] = Some x
                       \/ exists xs ys, x = VArr (xs ++ ys))).
Proof.
  unfold mergeEntry. destruct (is_undefined v) eqn:Ev.
  - intros H. injection H as <-. now left.
  - intros Hrun. right. split; [reflexivity|]. revert Hrun.
    assert (Hplainly : forall res,
              Some (assign (KStr key) v result) = Some res ->
              exists x, res = assign (KStr key) x result
                        /\ (x = v
                            \/ merge_ [read (KStr key) result; v] = Some x
                            \/ exists xs ys, x = VArr (xs ++ ys))).
    { intros res H. injection H as <-. exists v. auto. }
    destruct (negb (truthy (read (KStr key) result))); [now apply Hplainly|].
    destruct (Lodash.isPlainObject v
              && Lodash.isPlainObject (read (KStr key) result)).
    + destruct (merge_ _) as [r|] eqn:Er; [|discriminate].
      intros H. injection H as <-. exists r. auto.
    + destruct v; try (now apply Hplainly).
      destruct (read (KStr key) result); try (now apply Hplainly).
      intros H. injection H as <-. eexists. split; [reflexivity|].
      right. right. eauto.
Qed.

Lemma mergeEntries_keys (merge_ : list value -> option value)
    (es : list (string * value)) (k : key) :
  forall result result',
    fold_left (mergeEntry merge_) es (Some result) = Some result' ->
    (hasOwn k result' = true <->
     hasOwn k result = true
     \/ exists key v, In (key, v) es /\ k = KStr key
                      /\ is_undefined v = false).
Proof.
  induction es as [|[key v] es IH]; intros result result'; cbn [fold_left].
  - intros H. injection H as <-. split; [auto|].
    intros [H|(key & v & [] & _)]. exact H.
  - destruct (mergeEntry merge_ (Some result) (key, v)) as [r1|] eqn:E;
      [|rewrite mergeEntry_none; discriminate].
    intros H. rewrite (IH _ _ H).
    apply mergeEntry_assigns in E.
    destruct E as [[Ev ->]|[Ev (x & -> & _)]].
    + split; intros [Hown|(key' & v' & Hin & Hk & Hv')]; auto.
      * right. exists key', v'. split; [now right | auto].
      * destruct Hin as [Heq|Hin]; [congruence|].
        right. exists key', v'. auto.
    + rewrite hasOwn_assign. split.
      * intros [Hown|(key' & v' & Hin & Hk & Hv')].
        -- apply orb_true_iff in Hown. destruct Hown as [Hown|Hown];
             [|now left].
           apply key_eqb_eq in Hown. right. exists key, v.
           split; [now left | auto].
        -- right. exists key', v'. split; [now right | auto].
      * intros [Hown|(key' & v' & Hin & Hk & Hv')].
        -- left. rewrite Hown. apply orb_true_r.
        -- destruct Hin as [Heq|Hin].
           ++ injection Heq as <- <-. left. subst k.
              now rewrite key_eqb_refl.
           ++ right. exists key', v'. auto.
Qed.

Lemma mergeArgs_keys (merge_ : list value -> option value)
    (args : list value) (k : key) :
  forall result result',
    fold_left
      (fun acc obj =>
         fold_left (mergeEntry merge_) (Lodash.forOwn_entries obj) acc)
      args (Some result) = Some result' ->
    (hasOwn k result' = true <->
     hasOwn k result = true
     \/ exists a key v, In a args /\ In (key, v) (Lodash.forOwn_entries a)
                        /\ k = KStr key /\ is_undefined v = false).
Proof.
  induction args as [|a args IH]; intros result result'; cbn [fold_left].
  - intros H. injection H as <-. split; [auto|].
    intros [H|(a & key & v & [] & _)]. exact H.
  - destruct (fold_left (mergeEntry merge_) (Lodash.forOwn_entries a)
                (Some result)) as [r1|] eqn:E.
    + intros H. rewrite (IH _ _ H), (mergeEntries_keys _ _ _ _ _ E).
      split.
      * intros [[Hown|(key & v & Hin & Hk & Hv)]|(a' & key & v & Ha & Hr)].
        -- now left.
        -- right. exists a, key, v. split; [now left | auto].
        -- right. exists a', key, v. split; [now right | auto].
      * intros [Hown|(a' & key & v & [<-|Ha] & Hin & Hk & Hv)].
        -- left. now left.
        -- left. right. exists key, v. auto.
        -- right. exists a', key, v. auto.
    + intros H. exfalso. revert H. clear.
      induction args as [|a' args IH]; cbn [fold_left]; [discriminate|].
      now rewrite mergeEntry_none.
Qed.

(** The string keys of the result of [merge] are exactly the keys under
    which some argument has a value that is not [undefined]. *)
Theorem merge_keys (fuel : nat) (args : list value) (r : props)
    (key : string) :
  merge fuel args = Some (VObj r) ->
  (lookup (KStr key) r <> None <->
   exists a v, In a args /\ In (key, v) (Lodash.forOwn_entries a)
               /\ is_undefined v = false).
Proof.
  destruct fuel as [|fuel]; [discriminate|]. rewrite merge_unfold.
  match goal with
  | |- option_map VObj ?X = _ -> _ => destruct X as [fo|] eqn:E
  end; [|discriminate].
  intros H. injection H as <-.
  pose proof (mergeArgs_keys _ _ (KStr key) _ _ E) as Hk.
  assert (Hown : lookup (KStr key) fo <> None <-> hasOwn (KStr key) fo = true).
  { unfold hasOwn. destruct (lookup (KStr key) fo);
      split; congruence. }
  rewrite Hown, Hk. split.
  - intros [H|(a & key' & v & Ha & Hin & Heq & Hv)]; [discriminate|].
    injection Heq as <-. eauto.
  - intros (a & v & Ha & Hin & Hv). right. exists a, key, v. auto.
Qed.

Lemma merge_keys_witness :
  lookup (KStr "b")
    [(KStr "a", VNum 1); (KStr "b", VNull)] <> None.
Proof.
  apply (merge_keys 2
           [VObj [(KStr "a", VNum 1); (KStr "b", VUndefined)];
            VObj [(KStr "b", VNull); (KStr "c", VUndefined)]]
           [(KStr "a", VNum 1); (KStr "b", VNull)] "b" eq_refl).
  exists (VObj [(KStr "b", VNull); (KStr "c", VUndefined)]), VNull.
  split; [right; now left|]. split; [now left | reflexivity].
Defined.

Lemma Forall_assign_value (P : value -> Prop) (k : key) (v : value)
    (f : props) :
  P v -> Forall (fun kv => P (snd kv)) f ->
  Forall (fun kv => P (snd kv)) (assign k v f).
Proof.
  intros Hv Hf. induction Hf as [|[k0 v0] f H0 Hf IH]; cbn [assign].
  - now repeat constructor.
  - destruct (key_eqb k k0); constructor; auto.
Qed.

Lemma mergeEntries_defined (merge_ : list value -> option value)
    (es : list (string * value)) :
  (forall l x, merge_ l = Some x -> is_undefined x = false) ->
  forall result result',
    Forall (fun kv => is_undefined (snd kv) = false) result ->
    fold_left (mergeEntry merge_) es (Some result) = Some result' ->
    Forall (fun kv => is_undefined (snd kv) = false) result'.
Proof.
  intros Hrec. induction es as [|[key v] es IH]; intros result result' Hres;
    cbn [fold_left].
  - intros H. now injection H as <-.
  - destruct (mergeEntry merge_ (Some result) (key, v)) as [r1|] eqn:E;
      [|rewrite mergeEntry_none; discriminate].
    apply IH. apply mergeEntry_assigns in E.
    destruct E as [[_ ->]|[Ev (x & -> & Hx)]]; [exact Hres|].
    apply (Forall_assign_value (fun x => is_undefined x = false));
      [|exact Hres].
    destruct Hx as [->|[Hx|(xs & ys & ->)]];
      [exact Ev | now apply Hrec with (l := [read (KStr key) result; v])
      | reflexivity].
Qed.

Lemma mergeArgs_defined (merge_ : list value -> option value)
    (args : list value) :
  (forall l x, merge_ l = Some x -> is_undefined x = false) ->
  forall result result',
    Forall (fun kv => is_undefined (snd kv) = false) result ->
    fold_left
      (fun acc obj =>
         fold_left (mergeEntry merge_) (Lodash.forOwn_entries obj) acc)
      args (Some result) = Some result' ->
    Forall (fun kv => is_undefined (snd kv) = false) result'.
Proof.
  intros Hrec. induction args as [|a args IH]; intros result result' Hres;
    cbn [fold_left].
  - intros H. now injection H as <-.
  - destruct (fold_left (mergeEntry merge_) (Lodash.forOwn_entries a)
                (Some result)) as [r1|] eqn:E.
    + apply IH. exact (mergeEntries_defined _ _ Hrec _ _ Hres E).
    + intros H. exfalso. revert H. clear.
      induction args as [|a' args IH]; cbn [fold_left]; [discriminate|].
      now rewrite mergeEntry_none.
Qed.

(** No property of the result of [merge] is [undefined]. *)
Theorem merge_no_undefined (fuel : nat) (args : list value) (r : props)
    (k : key) (v : value) :
  merge fuel args = Some (VObj r) -> lookup k r = Some v ->
  is_undefined v = false.
Proof.
  destruct fuel as [|fuel]; [discriminate|]. rewrite merge_unfold.
  match goal with
  | |- option_map VObj ?X = _ -> _ => destruct X as [fo|] eqn:E
  end; [|discriminate].
  intros H Hk. injection H as <-.
  assert (Hall : Forall (fun kv => is_undefined (snd kv) = false) fo).
  { apply (mergeArgs_defined (merge fuel) args) with (result := []);
      [|constructor|exact E].
    intros l x Hx. destruct (merge_symbol_free _ _ _ Hx) as (fx & -> & _).
    reflexivity. }
  destruct (lookup_In _ _ _ Hk) as (k' & _ & Hin).
  rewrite Forall_forall in Hall. exact (Hall _ Hin).
Qed.

Lemma merge_no_undefined_witness :
  is_undefined (VNum 1) = false.
Proof.
  exact (merge_no_undefined 2
           [VObj [(KStr "a", VNum 1); (KStr "b", VUndefined)]]
           [(KStr "a", VNum 1)] (KStr "a") (VNum 1) eq_refl eq_refl).
Defined.

(** ** merge: the value under each key *)

Lemma mergeEntry_mergedValue (merge_ : list value -> option value)
    (result : props) (key : string) (v : value) :
  mergeEntry merge_ (Some result) (key, v) =
  match mergedValue merge_ (read (KStr key) result) v with
  | None => None
  | Some None => Some result
  | Some (Some x) => Some (assign (KStr key) x result)
  end.
Proof.
  unfold mergeEntry, mergedValue.
  destruct (is_undefined v); [reflexivity|].
  destruct (negb (truthy (read (KStr key) result))); [reflexivity|].
  destruct (Lodash.isPlainObject v
            && Lodash.isPlainObject (read (KStr key) result)).
  - now destruct (merge_ _).
  - destruct v; try reflexivity.
    now destruct (read (KStr key) result).
Qed.

Lemma mergeEntries_at (merge_ : list value -> option value)
    (es : list (string * value)) (key : string) :
  NoDup (map fst es) ->
  forall result result',
    fold_left (mergeEntry merge_) es (Some result) = Some result' ->
    lookup (KStr key) result' =
    match find_entry key es with
    | Some v =>
        match mergedValue merge_ (read (KStr key) result) v with
        | Some (Some x) => Some x
        | _ => lookup (KStr key) result
        end
    | None => lookup (KStr key) result
    end.
Proof.
  induction es as [|[k v] es IH]; intros Hnd result result';
    cbn [fold_left find_entry].
  - intros H. now injection H as <-.
  - inversion Hnd as [|? ? Hnotin Hnd']; subst.
    rewrite mergeEntry_mergedValue.
    destruct (String.eqb key k) eqn:Ek.
    + apply String.eqb_eq in Ek. subst k.
      destruct (mergedValue merge_ (read (KStr key) result) v)
        as [[x|]|]; [| |rewrite mergeEntry_none; discriminate];
        intros H; rewrite (IH Hnd' _ _ H),
          (find_entry_absent _ _ Hnotin).
      * now rewrite lookup_assign, key_eqb_refl.
      * reflexivity.
    + destruct (mergedValue merge_ (read (KStr k) result) v)
        as [[x|]|]; [| |rewrite mergeEntry_none; discriminate];
        intros H; rewrite (IH Hnd' _ _ H).
      * unfold read. rewrite !lookup_assign. simpl. now rewrite Ek.
      * reflexivity.
Qed.

(** [merge] of two arguments, key by key: a key the second argument does
    not define keeps what the first left; otherwise the second argument's
    value replaces a missing or falsy one, is merged into a plain object
    when both are plain objects, is put in front of the elements already
    there when both are arrays, and replaces anything else. *)
Theorem merge_two (fuel : nat) (a b : value) (r : props) (key : string) :
  distinct_keys a -> distinct_keys b ->
  merge (S fuel) [a; b] = Some (VObj r) ->
  lookup (KStr key) r =
  match hash_entry b key with
  | Some v =>
      match mergedValue (merge fuel)
              (match firstValue a key with
               | Some x => x
               | None => VUndefined
               end) v with
      | Some (Some x) => Some x
      | _ => firstValue a key
      end
  | None => firstValue a key
  end.
Proof.
  intros Ha Hb. rewrite merge_unfold. cbn [fold_left].
  unfold Lodash.forOwn_entries.
  destruct (fold_left (mergeEntry (merge fuel)) (own_entries a) (Some []))
    as [r1|] eqn:E1; [|rewrite mergeEntry_none; discriminate].
  destruct (fold_left (mergeEntry (merge fuel)) (own_entries b) (Some r1))
    as [r2|] eqn:E2; [|discriminate].
  intros H. injection H as <-.
  assert (H1 : lookup (KStr key) r1 = firstValue a key).
  { rewrite (mergeEntries_at _ _ key Ha _ _ E1).
    unfold firstValue, hash_entry.
    destruct (find_entry key (own_entries a)) as [v|]; [|reflexivity].
    unfold mergedValue. cbn [read lookup truthy negb].
    now destruct (is_undefined v). }
  rewrite (mergeEntries_at _ _ key Hb _ _ E2).
  unfold hash_entry, read. rewrite H1. reflexivity.
Qed.

Lemma merge_two_witness :
  lookup (KStr "order")
    [(KStr "order", VArr [VStr "y"; VStr "x"])]
  = Some (VArr [VStr "y"; VStr "x"]).
Proof.
  assert (Ha : distinct_keys (VObj [(KStr "order", VArr [VStr "x"])])).
  { unfold distinct_keys. simpl. repeat constructor. intros []. }
  assert (Hb : distinct_keys (VObj [(KStr "order", VArr [VStr "y"])])).
  { unfold distinct_keys. simpl. repeat constructor. intros []. }
  exact (merge_two 1 _ _ [(KStr "order", VArr [VStr "y"; VStr "x"])] "order"
           Ha Hb eq_refl).
Defined.

(** ** mergeDefaults: what is kept and what is taken from the source *)

Lemma assignMergeValue_object (f : props) (k : pkey) (x : value)
    (r : value) :
  assignMergeValue (VObj f) k x = Some r ->
  r = VObj f \/ r = VObj (assign (pkey_key k) x f).
Proof.
  unfold assignMergeValue.
  destruct (is_undefined x && has_prop (VObj f) k); cbn [set_prop];
    intros H; injection H as <-; auto.
Qed.

Lemma mergeProp_object (customizer : value -> value -> option value)
    (recur : value -> option value) (k : pkey) (src : value) (f : props)
    (r : value) :
  mergeProp customizer recur k src (Some (VObj f)) = Some r ->
  r = VObj f \/ exists x, r = VObj (assign (pkey_key k) x f).
Proof.
  unfold mergeProp. intros H.
  assert (Hfin : forall x, assignMergeValue (VObj f) k x = Some r ->
            r = VObj f \/ exists x, r = VObj (assign (pkey_key k) x f)).
  { intros x Hx. apply assignMergeValue_object in Hx.
    destruct Hx; eauto. }
  destruct (customizer _ src) as [nv|]; [now apply Hfin with nv|].
  destruct src; try (now eapply Hfin; exact H);
    destruct (recur _) as [nv|]; try discriminate; now apply Hfin with nv.
Qed.

Lemma defaultsCustomizer_settled (o src : value) :
  settled o = true -> defaultsCustomizer o src = Some o.
Proof.
  unfold settled, defaultsCustomizer, LodashClone.defined. intros H.
  apply andb_true_iff in H. destruct H as [H Hn].
  apply andb_true_iff in H. destruct H as [Hu Hp].
  rewrite Hp, Hu. cbn [andb].
  apply negb_true_iff in Hn, Hu. rewrite Hn, andb_false_r. now rewrite Hu.
Qed.

Lemma mergeProp_keeps (recur : value -> option value) (k' : pkey)
    (src : value) (f : props) (r : value) (k : key) (o : value) :
  settled o = true -> lookup k f = Some o ->
  mergeProp defaultsCustomizer recur k' src (Some (VObj f)) = Some r ->
  exists f', r = VObj f' /\ lookup k f' = Some o.
Proof.
  intros Ho Hk H. key_cases k (pkey_key k').
  - subst k. unfold mergeProp in H.
    assert (Hget : get_prop (VObj f) k' = o)
      by (cbn [get_prop]; unfold read; now rewrite Hk).
    rewrite Hget, (defaultsCustomizer_settled o src Ho) in H.
    apply assignMergeValue_object in H. destruct H as [->| ->].
    + eauto.
    + eexists. split; [reflexivity|]. now rewrite lookup_assign, key_eqb_refl.
  - apply mergeProp_object in H. destruct H as [->|[x ->]]; [eauto|].
    eexists. split; [reflexivity|]. rewrite lookup_assign.
    key_cases k (pkey_key k'); [contradiction | exact Hk].
Qed.

Lemma fold_fields_none {A : Type}
    (visit : string -> value -> option A -> option A) (f : props) :
  (forall s v, visit s v None = None) -> fold_fields visit f None = None.
Proof.
  intros H. induction f as [|[[s|y] v] f IH]; cbn [fold_fields];
    [reflexivity | now rewrite H | exact IH].
Qed.

Lemma fold_elems_none {A : Type}
    (visit : nat -> value -> option A -> option A) (l : list value) :
  (forall i v, visit i v None = None) ->
  forall i, fold_elems visit i l None = None.
Proof.
  intros H. induction l as [|v l IH]; intros i; cbn [fold_elems];
    [reflexivity | now rewrite H].
Qed.

Lemma merge_fields_keeps (fs : props) (k : key) (o : value) :
  settled o = true ->
  forall f r,
    lookup k f = Some o ->
    fold_fields
      (fun s v acc =>
         mergeProp defaultsCustomizer
           (fun t => baseMerge defaultsCustomizer t v) (PName s) v acc)
      fs (Some (VObj f)) = Some r ->
    exists f', r = VObj f' /\ lookup k f' = Some o.
Proof.
  intros Ho. induction fs as [|[[s|y] v] fs IH]; intros f r Hk;
    cbn [fold_fields].
  - intros H. injection H as <-. eauto.
  - destruct (mergeProp defaultsCustomizer _ (PName s) v (Some (VObj f)))
      as [r1|] eqn:E.
    + destruct (mergeProp_keeps _ _ _ _ _ _ _ Ho Hk E) as (f1 & -> & Hk1).
      now apply IH.
    + rewrite fold_fields_none by reflexivity. discriminate.
  - now apply IH.
Qed.

Lemma merge_elems_keeps (l : list value) (k : key) (o : value) :
  settled o = true ->
  forall i f r,
    lookup k f = Some o ->
    fold_elems
      (fun j v acc =>
         mergeProp defaultsCustomizer
           (fun t => baseMerge defaultsCustomizer t v) (PIndex j) v acc)
      i l (Some (VObj f)) = Some r ->
    exists f', r = VObj f' /\ lookup k f' = Some o.
Proof.
  intros Ho. induction l as [|v l IH]; intros i f r Hk; cbn [fold_elems].
  - intros H. injection H as <-. eauto.
  - destruct (mergeProp defaultsCustomizer _ (PIndex i) v (Some (VObj f)))
      as [r1|] eqn:E.
    + destruct (mergeProp_keeps _ _ _ _ _ _ _ Ho Hk E) as (f1 & -> & Hk1).
      now apply IH.
    + rewrite fold_elems_none by reflexivity. discriminate.
Qed.

(** [mergeDefaults] does not overwrite a property that is already
    assigned: a value of the destination that is neither [undefined], nor
    a plain object, nor a native function is still there in the result,
    whatever the source holds. *)
Theorem mergeDefaults_never_overwrites (f : props) (b : value) (k : key)
    (o : value) :
  lookup k f = Some o -> settled o = true ->
  exists fo,
    mergeDefaults (VObj f) b = Some (VObj fo) /\ lookup k fo = Some o.
Proof.
  intros Hk Ho.
  destruct (mergeDefaults_symbols f b) as (fo & Hfo & _).
  exists fo. split; [exact Hfo|].
  unfold mergeDefaults, mergeWith in Hfo. destruct (truthy b).
  - assert (Hr : exists f', VObj fo = VObj f' /\ lookup k f' = Some o).
    { destruct b; cbn [baseMerge] in Hfo;
        try (injection Hfo as <-; eauto).
      - exact (merge_elems_keeps _ k o Ho _ _ _ Hk Hfo).
      - exact (merge_fields_keeps _ k o Ho _ _ Hk Hfo).
      - exact (merge_fields_keeps _ k o Ho _ _ Hk Hfo). }
    destruct Hr as (f' & Heq & Hl). now injection Heq as <-.
  - now injection Hfo as <-.
Qed.

Lemma mergeDefaults_never_overwrites_witness :
  exists fo,
    mergeDefaults (VObj [(KStr "limit", VNum 0); (KStr "tags", VArr [])])
      (VObj [(KStr "limit", VNum 10); (KStr "tags", VArr [VStr "x"])])
    = Some (VObj fo)
    /\ lookup (KStr "limit") fo = Some (VNum 0).
Proof.
  exact (mergeDefaults_never_overwrites
           [(KStr "limit", VNum 0); (KStr "tags", VArr [])]
           (VObj [(KStr "limit", VNum 10); (KStr "tags", VArr [VStr "x"])])
           (KStr "limit") (VNum 0) eq_refl eq_refl).
Defined.

Lemma mergeProp_takes (recur : value -> option value) (s : string)
    (v : value) (f : props) :
  read (KStr s) f = VUndefined \/ (exists g, read (KStr s) f = VObj g) ->
  settled v = true -> isArray v = false ->
  mergeProp defaultsCustomizer recur (PName s) v (Some (VObj f))
  = Some (VObj (assign (KStr s) v f)).
Proof.
  intros Hcur Hv Harr. unfold mergeProp. cbn [get_prop pkey_key].
  assert (Hc : defaultsCustomizer (read (KStr s) f) v = None)
    by (destruct Hcur as [->|[g ->]]; reflexivity).
  rewrite Hc. unfold settled in Hv.
  destruct v; try discriminate; reflexivity.
Qed.

Lemma merge_fields_takes (fb : props) (s : string) (v : value) :
  settled v = true -> isArray v = false ->
  forall f r,
    lookup (KStr s) fb = Some v ->
    read (KStr s) f = VUndefined \/ (exists g, read (KStr s) f = VObj g) ->
    fold_fields
      (fun s v acc =>
         mergeProp defaultsCustomizer
           (fun t => baseMerge defaultsCustomizer t v) (PName s) v acc)
      fb (Some (VObj f)) = Some r ->
    exists f', r = VObj f' /\ lookup (KStr s) f' = Some v.
Proof.
  intros Hv Harr. induction fb as [|[[s'|y] x] fb IH]; intros f r Hl Hcur;
    cbn [fold_fields]; cbn [lookup key_eqb] in Hl; [discriminate| |].
  - destruct (String.eqb s s') eqn:Es.
    + apply String.eqb_eq in Es. subst s'. injection Hl as ->.
      rewrite (mergeProp_takes _ s v f Hcur Hv Harr).
      apply (merge_fields_keeps fb (KStr s) v Hv).
      now rewrite lookup_assign, key_eqb_refl.
    + destruct (mergeProp defaultsCustomizer _ (PName s') x (Some (VObj f)))
        as [r1|] eqn:E;
        [|rewrite fold_fields_none by reflexivity; discriminate].
      assert (Hne : KStr s <> KStr s').
      { intros Heq. injection Heq as ->. now rewrite String.eqb_refl in Es. }
      apply mergeProp_object in E. destruct E as [->|[x' ->]].
      * now apply IH.
      * apply IH; [exact Hl|]. unfold read in *. rewrite lookup_assign.
        cbn [pkey_key key_eqb]. now rewrite Es.
  - now apply IH.
Qed.



(** ** mapWhereFieldNames: values that are not plain objects *)

Lemma mapKey_moves (mw : value -> option value) (M : Model) (d : nat)
    (k : key) (v0 : value) (attrs : props) :
  no_length_field M -> props_ok d attrs ->
  lookup k attrs = Some v0 -> Lodash.isPlainObject v0 = false ->
  (renamed M k = true -> physical M k <> k) ->
  mapKey mw M (Some attrs) k = Some (renameField M k attrs)
  /\ lookup (slot M k) (renameField M k attrs) = Some v0
  /\ (renamed M k = true -> lookup k (renameField M k attrs) = None).
Proof.
  intros Hmodel Hok Hk Hplain Hself.
  pose proof (renameField_ok M Hmodel d k attrs Hok) as Hok1.
  assert (Hfacts :
            Lodash.isPlainObject (read k (renameField M k attrs)) = false
            /\ lookup (slot M k) (renameField M k attrs) = Some v0
            /\ (renamed M k = true ->
                lookup k (renameField M k attrs) = None)).
  { unfold slot, renameField, renamed, physical, read in *.
    destruct (rawAttributes M k) as [raw|]; [|now rewrite Hk].
    destruct (negb (opt_eqb (field raw) (fieldName raw))) eqn:Er.
    - specialize (Hself eq_refl).
      rewrite !lookup_remove, !lookup_assign, !key_eqb_refl.
      key_cases (opt_key (field raw)) k; [contradiction|].
      rewrite Hk. auto.
    - rewrite Hk. repeat split; auto. discriminate. }
  destruct Hfacts as (Hnp & Hslot & Hgone).
  split; [|split; assumption].
  unfold mapKey, mapNested. rewrite Hnp. cbn [andb].
  now apply mapElements_ok with d.
Qed.

Lemma cloned_not_plain (v : value) :
  Lodash.isPlainObject v = false -> Lodash.isFunction v = false ->
  Lodash.isPlainObject (cloned v) = false.
Proof. destruct v; intros H1 H2; try discriminate; reflexivity. Qed.



(** ** mapWhereFieldNames: symbol keys that are not operators *)

(** A symbol key that is not an operator is never looked at: it is found
    in the result with the deep clone of its value, whatever the model
    says. *)
Theorem mapWhereFieldNames_other_symbols (operatorsSet : symbol -> bool)
    (M : Model) (f : props) (fuel : nat) (r : value) (y : symbol) :
  operatorsSet y = false ->
  mapWhereFieldNames operatorsSet (S fuel) (VObj f) M = Some r ->
  exists fr,
    r = VObj fr
    /\ lookup (KSym y) fr = option_map cloned (lookup (KSym y) f).
Proof.
  intros Hy. rewrite mapWhereFieldNames_object.
  destruct (fold_left _ _ _) as [fr|] eqn:E; [|discriminate].
  intros H. injection H as <-. exists fr. split; [reflexivity|].
  rewrite <- lookup_map_values.
  apply (lookup_mapKeys_other
           (fun w => mapWhereFieldNames operatorsSet fuel w M) M (KSym y)
           (getComplexKeys operatorsSet (VObj f))); [|exact E].
  intros k Hk. split.
  - intros <-. apply getComplexKeys_symbol in Hk. congruence.
  - unfold renamed, physical.
    destruct (rawAttributes M k) as [raw|]; [|discriminate].
    intros _. now destruct (field raw).
Qed.

Lemma mapWhereFieldNames_other_symbols_witness :
  exists fr,
    mapWhereFieldNames exampleOperators 2
      (VObj [(KSym 50, VObj [(KStr "firstName", VStr "Ada")])])
      exampleModel = Some (VObj fr)
    /\ lookup (KSym 50) fr = Some (VObj [(KStr "firstName", VStr "Ada")]).
Proof.
  destruct (mapWhereFieldNames_other_symbols exampleOperators exampleModel
              [(KSym 50, VObj [(KStr "firstName", VStr "Ada")])] 1
              (VObj [(KSym 50, VObj [(KStr "firstName", VStr "Ada")])])
              50 eq_refl eq_refl) as (fr & Heq & Hl).
  exists fr. split; [now rewrite <- Heq | exact Hl].
Defined.

(** ** mapOptionFieldNames and mapFinderOptions: the attribute list *)

Lemma mapAttribute_twice (M : Model) (x : value) :
  mapAttribute M (mapAttribute M x) = mapAttribute M x.
Proof.
  destruct x; try reflexivity.
  assert (Hc : mapAttribute M (VStr s) = VStr s
               \/ exists a b, mapAttribute M (VStr s) = VArr [a; b]).
  { unfold mapAttribute.
    destruct (rawAttributes M (KStr s)) as [raw|]; [|now left].
    destruct (negb (opt_eqb (Some s) (field raw))); eauto. }
  destruct Hc as [Hc|(a & b & Hc)]; rewrite Hc; [exact Hc | reflexivity].
Qed.

Lemma mapAttribute_string (M : Model) (x : value) (s : string) :
  mapAttribute M x = VStr s -> x = VStr s.
Proof.
  destruct x; try (intros H; exact H). unfold mapAttribute.
  destruct (rawAttributes M (KStr s0)) as [raw|]; [|auto].
  destruct (negb (opt_eqb (Some s0) (field raw))); [discriminate | auto].
Qed.

(** Mapping the options a second time leaves the attribute list as the
    first mapping made it. *)
Theorem mapOptionFieldNames_attributes_stable
    (operatorsSet : symbol -> bool) (M : Model) (options r r2 : props)
    (l : list value) (fuel fuel' : nat) :
  read (KStr "attributes") options = VArr l ->
  mapOptionFieldNames operatorsSet fuel options M = Some r ->
  mapOptionFieldNames operatorsSet fuel' r M = Some r2 ->
  read (KStr "attributes") r2 = read (KStr "attributes") r.
Proof.
  intros Hl Hr Hr2.
  pose proof (mapOptionFieldNames_with_attributes _ M options r l Hl Hr)
    as H1.
  rewrite (mapOptionFieldNames_with_attributes _ M r r2 _ H1 Hr2), H1.
  f_equal. rewrite map_map. apply map_ext. intros x.
  apply mapAttribute_twice.
Qed.

Lemma mapOptionFieldNames_attributes_stable_witness :
  read (KStr "attributes")
    [(KStr "attributes", VArr [VArr [VStr "first_name"; VStr "firstName"]])]
  = read (KStr "attributes")
      [(KStr "attributes", VArr [VArr [VStr "first_name"; VStr "firstName"]])].
Proof.
  exact (mapOptionFieldNames_attributes_stable exampleOperators exampleModel
           [(KStr "attributes", VArr [VStr "firstName"])]
           [(KStr "attributes",
             VArr [VArr [VStr "first_name"; VStr "firstName"]])]
           [(KStr "attributes",
             VArr [VArr [VStr "first_name"; VStr "firstName"]])]
           [VStr "firstName"] 1 1 eq_refl eq_refl eq_refl).
Defined.

Lemma mapOptionFieldNames_with_no_attributes
    (mapWhere : value -> option value) (M : Model) (options r : props) :
  isArray (read (KStr "attributes") options) = false ->
  mapOptionFieldNames_with mapWhere options M = Some r ->
  read (KStr "attributes") r = read (KStr "attributes") options.
Proof.
  intros Ha. unfold mapOptionFieldNames_with.
  destruct (read (KStr "attributes") options) eqn:E; try discriminate;
    (destruct (truthy _ && Lodash.isPlainObject _);
     [destruct (mapWhere _) as [w|]; [|discriminate];
      intros H; injection H as <-; now rewrite read_assign, E
     |intros H; injection H as <-; exact E]).
Qed.

(** After [mapFinderOptions], no string entry of the attribute list names
    a virtual attribute, whatever dependent attributes were injected. *)
Theorem mapFinderOptions_no_virtual (operatorsSet : symbol -> bool)
    (inject : list value -> option (list value)) (M : Model)
    (options r : props) (fuel : nat) (l' : list value) (s : string) :
  mapFinderOptions operatorsSet inject fuel options M = Some r ->
  read (KStr "attributes") r = VArr l' ->
  In (VStr s) l' ->
  _virtualAttributes M s = false.
Proof.
  unfold mapFinderOptions, mapOptionFieldNames. intros Hr Hl' Hin.
  destruct (read (KStr "attributes") options) as [ | | | | | l | | | ] eqn:E;
    try (rewrite (mapOptionFieldNames_with_no_attributes _ M options r
                    ltac:(now rewrite E) Hr), E in Hl'; discriminate).
  revert Hr. rewrite read_assign, key_eqb_refl.
  assert (Hread : forall x o,
            read (KStr "attributes") (assign (KStr "attributes") x o) = x)
    by (intros x o; now rewrite read_assign, key_eqb_refl).
  destruct (inject l) as [l1|]; intros Hr.
  - pose proof (mapOptionFieldNames_with_attributes _ M _ r _
                  (Hread _ _) Hr) as Ha.
    rewrite Ha in Hl'. injection Hl' as <-. apply in_map_iff in Hin.
    destruct Hin as (x & Hx & Hin). apply mapAttribute_string in Hx.
    subst x. apply filter_In in Hin. destruct Hin as [_ Hv].
    apply negb_true_iff in Hv. exact Hv.
  - assert (Hna : isArray
                    (read (KStr "attributes")
                       (assign (KStr "attributes") VUndefined
                          (assign (KStr "attributes") VUndefined options)))
                  = false) by now rewrite Hread.
    pose proof (mapOptionFieldNames_with_no_attributes _ M _ r Hna Hr) as Ha.
    rewrite Ha, Hread in Hl'. discriminate.
Qed.

Lemma mapFinderOptions_no_virtual_witness :
  _virtualAttributes virtualModel "id" = false.
Proof.
  apply (mapFinderOptions_no_virtual exampleOperators exampleInject
           virtualModel
           [(KStr "attributes", VArr [VStr "fullName"; VStr "id"])]
           [(KStr "attributes",
             VArr [VStr "id"; VArr [VStr "first_name"; VStr "firstName"]])]
           1 [VStr "id"; VArr [VStr "first_name"; VStr "firstName"]] "id");
    [reflexivity | reflexivity | now left].
Defined.

(** ** camelizeObjectKeys *)

(** The value under a key of the camelized object is the value the input
    has under the last of its string keys that camelizes to it; a key to
    which no string key camelizes is absent, and so is every symbol
    key. *)
Theorem camelizeObjectKeys_lookup (camelize : string -> string)
    (obj : value) :
  (forall c,
     lookup (KStr c) (camelizeObjectKeys camelize obj) =
     option_map (fun key => prop_of obj (KStr key))
       (find (fun key => String.eqb (camelize key) c)
          (rev (map fst (own_entries obj)))))
  /\ (forall y, lookup (KSym y) (camelizeObjectKeys camelize obj) = None).
Proof.
  unfold camelizeObjectKeys. generalize (map fst (own_entries obj)).
  intros keys. split.
  - intros c. induction keys as [|key keys IH] using rev_ind;
      [reflexivity|].
    rewrite fold_left_app, rev_app_distr. cbn [fold_left rev app find].
    rewrite lookup_assign. cbn [key_eqb].
    rewrite String.eqb_sym.
    destruct (String.eqb (camelize key) c); [reflexivity | exact IH].
  - intros y. induction keys as [|key keys IH] using rev_ind;
      [reflexivity|].
    rewrite fold_left_app. cbn [fold_left].
    now rewrite lookup_assign.
Qed.

(** ** combineTableNames and generateEnumName *)

Lemma ltb_irrefl (s : string) : String.ltb s s = false.
Proof.
  unfold String.ltb. pose proof (String.compare_antisym s s) as H.
  destruct (String.compare s s); try reflexivity; discriminate.
Qed.

(** When the two names differ at most by letter case, the second one is
    put first, so exchanging two such names exchanges the two halves of
    the result. *)
Theorem combineTableNames_same_lowercase (a b : string) :
  Str.toLowerCase a = Str.toLowerCase b ->
  combineTableNames a b = b ++ a /\ combineTableNames b a = a ++ b.
Proof.
  intros H. unfold combineTableNames. rewrite H, ltb_irrefl. auto.
Qed.

Lemma combineTableNames_same_lowercase_witness :
  combineTableNames "User" "user" = "userUser"
  /\ combineTableNames "user" "User" = "Useruser".
Proof.
  exact (combineTableNames_same_lowercase "User" "user" eq_refl).
Defined.

Lemma append_cancel_l (a x y : string) :
  (a ++ x)%string = (a ++ y)%string -> x = y.
Proof.
  induction a as [|c a IH]; simpl; [auto|].
  intros H. injection H as H. now apply IH.
Qed.

(** Two columns of one table get different enum names. *)
Theorem generateEnumName_columns (tableName c1 c2 : string) :
  generateEnumName tableName c1 = generateEnumName tableName c2 -> c1 = c2.
Proof.
  unfold generateEnumName. intros H.
  apply append_cancel_l in H. apply append_cancel_l in H.
  now apply append_cancel_l in H.
Qed.

Lemma generateEnumName_columns_witness :
  "role" = "role".
Proof.
  exact (generateEnumName_columns "users" "role" "role" eq_refl).
Defined.

(** The names of two tables can meet: the separator may occur in a table
    or column name, so a table [t_x] with column [c] and a table [t] with
    column [x_c] get the same enum name. *)
Theorem generateEnumName_tables_collide (t x c : string) :
  generateEnumName (t ++ "_" ++ x) c = generateEnumName t (x ++ "_" ++ c).
Proof.
  unfold generateEnumName. now rewrite !append_assoc.
Qed.
